(** * Routing tables of jina: a shallow embedding of
      [jina/types/routing/table.py] and the properties of its graph
      operations.

    The Python classes [TargetPod] and [RoutingTable] are thin wrappers
    around protobuf messages that are mutated in place.  A method is
    embedded as a computation in a state-and-exception monad whose state
    is the message the receiver wraps; the object heap that decides
    whether two [RoutingTable] objects share one message or own separate
    ones is a second instance of the same monad. *)

From stdpp Require Import gmap strings list pretty.
From Stdlib Require Import ZArith Permutation.

Local Open Scope Z_scope.

(** ** Exceptions and outcomes *)

(** The exception classes the module can raise or let through.
    [BadRequestType] keeps the exception it was raised [from]. *)
Inductive exn : Type :=
  | ValueError (msg : string)
  | KeyError (key : string)
  | RuntimeError (msg : string)
  | DecodeError (msg : string)
  | BadRequestType (msg : string) (cause : exn).

(** Outcome of a call: a value, a Python exception, or [Stuck] when the
    embedding itself cannot continue (a reference that points nowhere, or
    the recursion budget of the depth-first search used up). *)
Inductive result (A : Type) : Type :=
  | Ok (a : A)
  | Raise (e : exn)
  | Stuck.
Arguments Ok {A} a.
Arguments Raise {A} e.
Arguments Stuck {A}.

(** ** The state-and-exception monad *)

Definition ST (S A : Type) : Type := S → result A * S.

Definition ret {S A} (a : A) : ST S A := λ s, (Ok a, s).

Definition bind {S A B} (m : ST S A) (k : A → ST S B) : ST S B :=
  λ s, match m s with
       | (Ok a, s') => k a s'
       | (Raise e, s') => (Raise e, s')
       | (Stuck, s') => (Stuck, s')
       end.

Definition raise {S A} (e : exn) : ST S A := λ s, (Raise e, s).
Definition stuck {S A} : ST S A := λ s, (Stuck, s).
Definition get {S} : ST S S := λ s, (Ok s, s).
Definition put {S} (s : S) : ST S unit := λ _, (Ok tt, s).

(** [try: m except Exception as ex: h ex].  State changes made before the
    exception stay, as in Python. *)
Definition try_except {S A} (m : ST S A) (h : exn → ST S A) : ST S A :=
  λ s, match m s with
       | (Raise e, s') => h e s'
       | other => other
       end.

Declare Scope st_scope.
Delimit Scope st_scope with st.
Notation "x <- m ;; k" := (bind m (λ x, k))
  (at level 100, m at next level, right associativity) : st_scope.
Notation "m ;; k" := (bind m (λ _, k))
  (at level 100, right associativity) : st_scope.
Local Open Scope st_scope.

(** [for x in xs: acc = body acc x], with the loop-carried values made
    explicit. *)
Fixpoint for_each {S A X} (xs : list X) (body : A → X → ST S A) (acc : A)
  : ST S A :=
  match xs with
  | [] => ret acc
  | x :: xs' => acc' <- body acc x ;; for_each xs' body acc'
  end.

(** ** The protobuf messages *)

Module jina_pb2.

(** Modelled from the spec: the generated message classes of
    [jina/proto], which are not part of the sources at hand.  A node
    descriptor holds a host, a port, the ordered list of out-edges and
    the expected-parts counter; a routing table holds the map from pod
    names to descriptors and the name of the active pod.  Unset fields
    read as the empty string, zero and the empty list. *)
Record TargetPodProto : Type := {
  host : string;
  port : Z;
  out_edges : list string;
  expected_parts : Z
}.

(** The [pods] map keeps its entries in insertion order, which is the
    order in which [for pod in self.pods] enumerates them. *)
Record RoutingTableProto : Type := {
  pods : list (string * TargetPodProto);
  active_pod : string
}.

Definition TargetPodProto_new : TargetPodProto :=
  {| host := EmptyString; port := 0; out_edges := [];
     expected_parts := 0 |}.

Definition RoutingTableProto_new : RoutingTableProto :=
  {| pods := []; active_pod := EmptyString |}.

End jina_pb2.
Import jina_pb2.

(** ** The message-map container behind [pods] *)

Module MessageMap.

Fixpoint lookup {V} (k : string) (m : list (string * V)) : option V :=
  match m with
  | [] => None
  | (k', v) :: m' => if decide (k = k') then Some v else lookup k m'
  end.

(** [k in m] *)
Definition contains {V} (k : string) (m : list (string * V)) : bool :=
  bool_decide (is_Some (lookup k m)).

(** In-place update of the entry stored under [k]. *)
Fixpoint alter {V} (f : V → V) (k : string) (m : list (string * V))
  : list (string * V) :=
  match m with
  | [] => []
  | (k', v) :: m' =>
      if decide (k = k') then (k', f v) :: m' else (k', v) :: alter f k m'
  end.

(** Modelled from the spec: the map type of the generated message, for
    which "accessing [pods[name]] auto-creates an entry".  [m[k]] on a
    missing key stores a fresh default message under [k]; [add_pod],
    which indexes the map only after checking that the key is absent,
    depends on exactly this. *)
Definition get_or_create {V} (dflt : V) (k : string) (m : list (string * V))
  : list (string * V) :=
  match lookup k m with
  | Some _ => m
  | None => m ++ [(k, dflt)]
  end.

Definition keys {V} (m : list (string * V)) : list string := m.*1.

End MessageMap.

(** ** Methods as computations on the receiver's message *)

(** [B A]: a method body running against [self._pb_body]. *)
Definition B (A : Type) : Type := ST RoutingTableProto A.

(** A reference to the sub-message stored under a key of [pods]: what
    [self.pods[name]] evaluates to. *)
Record slot_ref : Type := SlotRef { slot_key : string }.

(** [name in self.pods] *)
Definition pods_contains (name : string) : B bool :=
  pb <- get ;; ret (MessageMap.contains name (pods pb)).

(** [self.pods[name]] *)
Definition pods_getitem (name : string) : B slot_ref :=
  pb <- get ;;
  put {| pods := MessageMap.get_or_create TargetPodProto_new name (pods pb);
         active_pod := active_pod pb |} ;;
  ret (SlotRef name).

(** Reading the fields of a referenced sub-message. *)
Definition slot_read (r : slot_ref) : B TargetPodProto :=
  pb <- get ;;
  match MessageMap.lookup (slot_key r) (pods pb) with
  | Some tp => ret tp
  | None => stuck
  end.

(** Writing a referenced sub-message in place. *)
Definition slot_modify (r : slot_ref) (f : TargetPodProto → TargetPodProto)
  : B unit :=
  pb <- get ;;
  match MessageMap.lookup (slot_key r) (pods pb) with
  | Some _ =>
      put {| pods := MessageMap.alter f (slot_key r) (pods pb);
             active_pod := active_pod pb |}
  | None => stuck
  end.

Module TargetPod.

(** [TargetPod(target)]: the wrapper keeps the reference it is given. *)
Record t : Type := TargetPod { _pb_body : slot_ref }.

Definition proto (self : t) : slot_ref := _pb_body self.

Definition port (self : t) : B Z :=
  tp <- slot_read (proto self) ;; ret (jina_pb2.port tp).

Definition host (self : t) : B string :=
  tp <- slot_read (proto self) ;; ret (jina_pb2.host tp).

(** [f'{self.host}:{self.port}'], the port printed in decimal. *)
Definition full_address (self : t) : B string :=
  h <- host self ;; p <- port self ;; ret (h +:+ ":" +:+ pretty p).

Definition expected_parts (self : t) : B Z :=
  tp <- slot_read (proto self) ;; ret (jina_pb2.expected_parts tp).

Definition set_expected_parts (self : t) (value : Z) : B unit :=
  slot_modify (proto self)
    (λ tp, {| jina_pb2.host := jina_pb2.host tp;
              jina_pb2.port := jina_pb2.port tp;
              jina_pb2.out_edges := jina_pb2.out_edges tp;
              jina_pb2.expected_parts := value |}).

Definition out_edges (self : t) : B (list string) :=
  tp <- slot_read (proto self) ;; ret (jina_pb2.out_edges tp).

Definition add_edge (self : t) (to_pod : string) : B unit :=
  slot_modify (proto self)
    (λ tp, {| jina_pb2.host := jina_pb2.host tp;
              jina_pb2.port := jina_pb2.port tp;
              jina_pb2.out_edges := jina_pb2.out_edges tp ++ [to_pod];
              jina_pb2.expected_parts := jina_pb2.expected_parts tp |}).

End TargetPod.

(** ** The object heap *)

(** Every [RoutingTableProto] object lives in a cell of the heap; a
    [RoutingTable] holds the address of the cell it wraps, so that two
    tables built with [copy=False] from one another see the same cell. *)
Abbreviation loc := nat (only parsing).
Abbreviation heap := (list RoutingTableProto) (only parsing).
Definition M (A : Type) : Type := ST heap A.

(** [jina_pb2.RoutingTableProto()]: a new cell. *)
Definition alloc (pb : RoutingTableProto) : M loc :=
  λ h, (Ok (length h), h ++ [pb]).

(** Run a method body against the message stored at [l]. *)
Definition call {A} (l : loc) (m : B A) : M A :=
  λ h, match h !! l with
       | Some pb => let '(r, pb') := m pb in (r, <[l:=pb']> h)
       | None => (Stuck, h)
       end.

(** [dst.CopyFrom(src)]: [dst] becomes a field-by-field copy of [src]. *)
Definition CopyFrom (dst src : loc) : M unit :=
  pb <- call src get ;; call dst (put pb).

(** ** Arguments of the constructor *)

(** Objects that are none of the recognised graph representations. *)
Inductive pyobject : Type :=
  | PyInt (n : Z)
  | PyFloat (mantissa exponent : Z)
  | PyInstance (class_name : string).

(** The decoders of [google.protobuf] and the formatting helpers, which
    the constructor only calls.  A decoder either fills the message or
    raises. *)
Class Externals : Type := {
  pydict : Type;
  ParseDict : pydict → exn + RoutingTableProto;
  Parse : string → exn + RoutingTableProto;
  ParseFromString : list Byte.byte → exn + RoutingTableProto;
  typename : pyobject → string
}.

(** ** Depth-first search state *)

(** [visited[k]] on a [defaultdict(bool)]: a miss stores [False]. *)
Definition visited_getitem (k : string) (visited : gmap string bool)
  : bool * gmap string bool :=
  match visited !! k with
  | Some b => (b, visited)
  | None => (false, <[k:=false]> visited)
  end.

Definition enumerate {A} (l : list A) : list (nat * A) :=
  imap (λ i x, (i, x)) l.

(** [{pod: position for position, pod in enumerate(l)}] *)
Definition position_dict (l : list string) : gmap string nat :=
  foldl (λ d '(position, pod), <[pod:=position]> d) ∅ (enumerate l).

(** [d[k]] on a plain dict. *)
Definition dict_getitem {S} (d : gmap string nat) (k : string) : ST S nat :=
  match d !! k with
  | Some v => ret v
  | None => raise (KeyError k)
  end.

(** Number of names a table mentions, as keys or as out-edge targets; the
    depth-first search never nests deeper than this.  With this budget
    [is_acyclic] below is the method as it runs while the interpreter's
    recursion limit is not reached; [is_acyclic_at] further down makes the
    limit explicit and raises [RecursionError] when the search would nest
    deeper. *)
Definition recursion_budget (pb : RoutingTableProto) : nat :=
  S (length (pods pb) + sum_list ((length ∘ out_edges ∘ snd) <$> pods pb)).

Module RoutingTable.

Record t : Type := RoutingTable { _pb_body : loc }.

Inductive graph_arg `{Externals} : Type :=
  | GraphNone
  | GraphTable (graph : t)
  | GraphProto (graph : loc)
  | GraphDict (graph : pydict)
  | GraphStr (graph : string)
  | GraphBytes (graph : list Byte.byte)
  | GraphOther (graph : pyobject).

(** The outcome of a decoder applied to the fresh message [body]: the
    decoded fields are stored, or the decoder's exception is raised. *)
Definition fill `{Externals} (body : loc)
    (decoded : exn + RoutingTableProto) : M unit :=
  match decoded with
  | inr pb => call body (put pb)
  | inl e => raise e
  end.

(** [RoutingTable(graph, copy)].  The branches follow the [isinstance]
    chain; of the message of [BadRequestType], which also interpolates
    the class and the argument, the fixed text is kept. *)
Definition __init__ `{Externals} (graph : graph_arg) (copy : bool) : M t :=
  body <- alloc RoutingTableProto_new ;;
  try_except
    (match graph with
     | GraphTable g =>
         if copy then CopyFrom body (_pb_body g) ;; ret (RoutingTable body)
         else ret (RoutingTable (_pb_body g))
     | GraphProto p =>
         if copy then CopyFrom body p ;; ret (RoutingTable body)
         else ret (RoutingTable p)
     | GraphDict d => fill body (ParseDict d) ;; ret (RoutingTable body)
     | GraphStr s => fill body (Parse s) ;; ret (RoutingTable body)
     | GraphBytes b =>
         fill body (ParseFromString b) ;; ret (RoutingTable body)
     | GraphOther o =>
         raise (ValueError (typename o +:+ " is not recognizable"))
     | GraphNone => ret (RoutingTable body)
     end)
    (λ ex, raise (BadRequestType
             "fail to construct a RoutingTable object" ex)).

Definition _get_target_pod (pod : string) : B TargetPod.t :=
  r <- pods_getitem pod ;; ret (TargetPod.TargetPod r).

Definition add_edge (from_pod to_pod : string) : B unit :=
  src <- _get_target_pod from_pod ;;
  TargetPod.add_edge src to_pod ;;
  dst <- _get_target_pod to_pod ;;
  n <- TargetPod.expected_parts dst ;;
  TargetPod.set_expected_parts dst (n + 1).

Definition add_pod (pod_name host : string) (port : Z) : B unit :=
  present <- pods_contains pod_name ;;
  if present : bool then
    raise (ValueError ("Vertex with name " +:+ pod_name +:+
      " already exists. Please check your configuration for unique Pod names."))
  else
    target <- pods_getitem pod_name ;;
    slot_modify target
      (λ tp, {| jina_pb2.host := host;
                jina_pb2.port := jina_pb2.port tp;
                jina_pb2.out_edges := jina_pb2.out_edges tp;
                jina_pb2.expected_parts := jina_pb2.expected_parts tp |}) ;;
    slot_modify target
      (λ tp, {| jina_pb2.host := jina_pb2.host tp;
                jina_pb2.port := port;
                jina_pb2.out_edges := jina_pb2.out_edges tp;
                jina_pb2.expected_parts := jina_pb2.expected_parts tp |}).

Definition active_pod : B string :=
  pb <- get ;; ret (jina_pb2.active_pod pb).

Definition set_active_pod (pod_name : string) : B unit :=
  pb <- get ;;
  put {| pods := pods pb; jina_pb2.active_pod := pod_name |}.

Definition _get_out_edges (pod : string) : B (list string) :=
  tp <- _get_target_pod pod ;; TargetPod.out_edges tp.

Definition active_target_pod : B TargetPod.t :=
  name <- active_pod ;;
  r <- pods_getitem name ;;
  ret (TargetPod.TargetPod r).

Definition get_next_targets `{Externals} (self : t) : M (list t) :=
  edges <- call (_pb_body self)
             (name <- active_pod ;; _get_out_edges name) ;;
  for_each edges
    (λ targets next_pod_index,
       new_graph <- __init__ (GraphTable self) true ;;
       call (_pb_body new_graph) (set_active_pod next_pod_index) ;;
       ret (targets ++ [new_graph]))
    [].

Fixpoint _topological_sort_pod (fuel : nat) (pod : string)
    (vs : gmap string bool * list string)
  : B (gmap string bool * list string) :=
  match fuel with
  | O => stuck
  | S fuel' =>
      let visited := <[pod:=true]> (vs.1) in
      edges <- _get_out_edges pod ;;
      vs' <- for_each edges
               (λ '(visited, stack) out_pod,
                  let '(seen, visited) := visited_getitem out_pod visited in
                  if seen : bool then ret (visited, stack)
                  else _topological_sort_pod fuel' out_pod (visited, stack))
               (visited, vs.2) ;;
      ret (vs'.1, vs'.2 ++ [pod])
  end.

(** [for pod in self.pods: ...] over the keys present when the loop
    starts.  Like a dict, the map refuses to produce a next key once an
    entry has been added since the loop began. *)
Fixpoint for_each_pod {A} (size : nat) (keys : list string)
    (body : A → string → B A) (acc : A) : B A :=
  pb <- get ;;
  if decide (length (pods pb) = size) then
    match keys with
    | [] => ret acc
    | pod :: keys' =>
        acc' <- body acc pod ;; for_each_pod size keys' body acc'
    end
  else raise (RuntimeError "Map modified during iteration.").

(** The traversal of [_topological_sort], started from the given
    enumeration of the keys. *)
Definition _topological_sort_from (keys : list string) : B (list string) :=
  pb <- get ;;
  vs <- for_each_pod (length (pods pb)) keys
          (λ '(visited, stack) pod,
             let '(seen, visited) := visited_getitem pod visited in
             if seen : bool then ret (visited, stack)
             else _topological_sort_pod (recursion_budget pb) pod
                    (visited, stack))
          (∅, []) ;;
  ret (reverse (vs.2)).

Definition _topological_sort : B (list string) :=
  pb <- get ;; _topological_sort_from (MessageMap.keys (pods pb)).

(** The two nested loops of [is_acyclic]; [Some b] stands for
    [return b] from inside a loop. *)
Fixpoint scan_out_edges (position_lookup : gmap string nat)
    (first : string) (edges : list string) : B (option bool) :=
  match edges with
  | [] => ret None
  | second :: edges' =>
      p1 <- dict_getitem position_lookup first ;;
      p2 <- dict_getitem position_lookup second ;;
      (* p1 > p2 *)
      if decide (p2 < p1)%nat then ret (Some false)
      else scan_out_edges position_lookup first edges'
  end.

Fixpoint scan_pods (position_lookup : gmap string nat)
    (order : list string) : B (option bool) :=
  match order with
  | [] => ret None
  | first :: order' =>
      edges <- _get_out_edges first ;;
      r <- scan_out_edges position_lookup first edges ;;
      match r with
      | Some b => ret (Some b)
      | None => scan_pods position_lookup order'
      end
  end.

Definition is_acyclic_from (keys : list string) : B bool :=
  topological_sorting <- _topological_sort_from keys ;;
  let position_lookup := position_dict topological_sorting in
  r <- scan_pods position_lookup topological_sorting ;;
  ret (default true r).

Definition is_acyclic : B bool :=
  pb <- get ;; is_acyclic_from (MessageMap.keys (pods pb)).

End RoutingTable.

Import RoutingTable.

(** ** Auxiliary definitions for the statements *)

Definition with_pods (pb : RoutingTableProto)
    (m : list (string * TargetPodProto)) : RoutingTableProto :=
  {| pods := m; jina_pb2.active_pod := jina_pb2.active_pod pb |}.

Definition append_edge (to_pod : string) (tp : TargetPodProto)
  : TargetPodProto :=
  {| host := host tp; port := port tp;
     out_edges := out_edges tp ++ [to_pod];
     expected_parts := expected_parts tp |}.

Definition store_parts (value : Z) (tp : TargetPodProto) : TargetPodProto :=
  {| host := host tp; port := port tp; out_edges := out_edges tp;
     expected_parts := value |}.

(** The [pods] map after [add_edge from_pod to_pod]. *)
Definition pods_after_edge (from_pod to_pod : string)
    (m : list (string * TargetPodProto)) : list (string * TargetPodProto) :=
  let m1 := MessageMap.get_or_create TargetPodProto_new from_pod m in
  let m2 := MessageMap.alter (append_edge to_pod) from_pod m1 in
  let m3 := MessageMap.get_or_create TargetPodProto_new to_pod m2 in
  let n := expected_parts
             (default TargetPodProto_new (MessageMap.lookup to_pod m3)) in
  MessageMap.alter (store_parts (n + 1)) to_pod m3.

(** The sub-message stored under [n] after [add_edge from_pod to_pod],
    from the one stored before. *)
Definition slot_after_edge (from_pod to_pod n : string)
    (o : option TargetPodProto) : option TargetPodProto :=
  let o1 := if decide (n = from_pod)
            then Some (append_edge to_pod (default TargetPodProto_new o))
            else o in
  if decide (n = to_pod)
  then Some (store_parts
               (expected_parts (default TargetPodProto_new o1) + 1)
               (default TargetPodProto_new o1))
  else o1.

(** A run of [add_edge] calls, in order. *)
Definition add_edges (calls : list (string * string)) : B unit :=
  for_each calls (λ _ '(from_pod, to_pod), add_edge from_pod to_pod) tt.

Definition slot_after_edges (calls : list (string * string)) (n : string)
    (o : option TargetPodProto) : option TargetPodProto :=
  foldl (λ o '(from_pod, to_pod), slot_after_edge from_pod to_pod n o) o calls.

(** The calls that name [n] as their target, and the targets of the
    calls that name [n] as their source. *)
Definition calls_to (n : string) (calls : list (string * string))
  : list (string * string) := filter (λ c, n = c.2) calls.

Definition targets_from (n : string) (calls : list (string * string))
  : list string := (filter (λ c, n = c.1) calls).*2.

Definition mentions (n : string) (calls : list (string * string)) : Prop :=
  n ∈ calls.*1 ∨ n ∈ calls.*2.

(** A sub-message with further out-edges appended and its counter
    raised. *)
Definition extend (tp : TargetPodProto) (edges : list string) (k : Z)
  : TargetPodProto :=
  {| host := host tp; port := port tp;
     out_edges := out_edges tp ++ edges;
     expected_parts := expected_parts tp + k |}.

Global Instance mentions_dec n calls : Decision (mentions n calls).
Proof. unfold mentions. apply _. Defined.

(** [self._get_target_pod(n).expected_parts], the way a caller reads the
    counter of a pod. *)
Definition read_expected_parts (n : string) : B Z :=
  tp <- _get_target_pod n ;; TargetPod.expected_parts tp.

(** The counter stored for [n]; a name without an entry reads as the
    default message, which is also what the first access creates. *)
Definition parts_of (n : string) (pb : RoutingTableProto) : Z :=
  expected_parts (default TargetPodProto_new (MessageMap.lookup n (pods pb))).

Definition edges_of (n : string) (pb : RoutingTableProto) : list string :=
  out_edges (default TargetPodProto_new (MessageMap.lookup n (pods pb))).

(** A method body that leaves every expected-parts counter as it was,
    whatever its outcome. *)
Definition keeps_parts {A} (m : B A) : Prop :=
  ∀ pb k, parts_of k (m pb).2 = parts_of k pb.

(** The table with its active pod replaced: what a next-hop snapshot
    holds. *)
Definition with_active (pb : RoutingTableProto) (name : string)
  : RoutingTableProto :=
  {| pods := pods pb; jina_pb2.active_pod := name |}.

(** An instance of the external interface whose decoders reject every
    input; [typename] prints the class of the object. *)
Definition no_decoders : Externals :=
  {| pydict := list (string * string);
     ParseDict := λ _, inl (DecodeError "cannot parse dict");
     Parse := λ _, inl (DecodeError "cannot parse str");
     ParseFromString := λ _, inl (DecodeError "cannot parse bytes");
     typename := λ o, match o with
                      | PyInt _ => "int"
                      | PyFloat _ _ => "float"
                      | PyInstance c => c
                      end |}.

(** ** The graph a table describes *)

(** [edge pb a b]: pod [a] of the table lists [b], itself a pod of the
    table, among its out-edges. *)
Definition edge (pb : RoutingTableProto) (a b : string) : Prop :=
  b ∈ edges_of a pb ∧ is_Some (MessageMap.lookup b (pods pb)).

(** A directed cycle among the pods: some pod reaches itself along one or
    more edges. *)
Definition has_cycle (pb : RoutingTableProto) : Prop :=
  ∃ a, tc (edge pb) a a.

(** ** Tables used as examples *)

(** An empty table whose active pod was set to a name it has no entry
    for. *)
Definition dangling_active : RoutingTableProto :=
  (set_active_pod "A" RoutingTableProto_new).2.

(** [A→B→C] *)
Definition chain_abc : RoutingTableProto :=
  (add_edges [("A", "B"); ("B", "C")] RoutingTableProto_new).2.

(** [A→A] *)
Definition self_loop : RoutingTableProto :=
  (add_edges [("A", "A")] RoutingTableProto_new).2.

(** [A→B→A] *)
Definition two_cycle : RoutingTableProto :=
  (add_edges [("A", "B"); ("B", "A")] RoutingTableProto_new).2.

(** Active pod [A] with out-edges [B] and [C]. *)
Definition fan_out : RoutingTableProto :=
  (set_active_pod "A"
     (add_edges [("A", "B"); ("A", "C")] RoutingTableProto_new).2).2.

(** The message [add_pod] raises for a name that is taken. *)
Definition duplicate_message (pod_name : string) : string :=
  "Vertex with name " +:+ pod_name +:+
  " already exists. Please check your configuration for unique Pod names.".

(** ** Vocabulary for the depth-first search *)

(** Every out-edge of the table leads to a pod of the table. *)
Definition closed (pb : RoutingTableProto) : Prop :=
  ∀ a b, b ∈ edges_of a pb → is_Some (MessageMap.lookup b (pods pb)).

(** A cycle that passes through two different pods. *)
Definition has_proper_cycle (pb : RoutingTableProto) : Prop :=
  ∃ a b, a ≠ b ∧ tc (edge pb) a b ∧ tc (edge pb) b a.

(** [visited[x]] is [True]. *)
Definition seen (visited : gmap string bool) (x : string) : Prop :=
  visited !! x = Some true.

Definition key_set (pb : RoutingTableProto) : gset string :=
  list_to_set (MessageMap.keys (pods pb)).

(** The pods the search has not entered yet. *)
Definition unvisited (pb : RoutingTableProto) (visited : gmap string bool)
  : gset string :=
  filter (λ x, visited !! x ≠ Some true) (key_set pb).

(** [m] sits in [stack] at or below the position of [n]. *)
Definition before_eq (m n : string) (stack : list string) : Prop :=
  ∃ i j, stack !! i = Some m ∧ stack !! j = Some n ∧ (i ≤ j)%nat.

(** What holds of the visited marks and the stack between any two steps
    of the search: the stack has no repetitions and holds only entered
    pods, only pods of the table are entered, and an out-edge of a pod on
    the stack leads to a pod at or below it, or else to a different pod
    from which the first can be reached. *)
Record dfs_inv (pb : RoutingTableProto) (visited : gmap string bool)
    (stack : list string) : Prop := {
  inv_nodup : NoDup stack;
  inv_keys : ∀ x, seen visited x → is_Some (MessageMap.lookup x (pods pb));
  inv_stack_seen : ∀ x, x ∈ stack → seen visited x;
  inv_edges : ∀ n m, n ∈ stack → m ∈ edges_of n pb →
    before_eq m n stack ∨ (m ≠ n ∧ tc (edge pb) m n)
}.

(** How a later state of the search relates to an earlier one: marks are
    kept, the stack grows at its end by pods that were not entered
    before, and no pod joins those entered but not yet on the stack. *)
Definition dfs_extends (vs vs' : gmap string bool * list string) : Prop :=
  (∀ x, seen vs.1 x → seen vs'.1 x) ∧
  (∀ x, seen vs'.1 x → x ∉ vs'.2 → seen vs.1 x ∧ x ∉ vs.2) ∧
  (∃ new, vs'.2 = vs.2 ++ new) ∧
  (∀ x, x ∈ vs'.2 → x ∈ vs.2 ∨ ¬ seen vs.1 x).

(** ** Vocabulary for the further properties *)

(** What a caller reads for the pod [n]: its entry, or the default
    message the first access would create. *)
Definition descriptor (n : string) (pb : RoutingTableProto) : TargetPodProto :=
  default TargetPodProto_new (MessageMap.lookup n (pods pb)).

(** Default entries for the given names. *)
Definition default_entries (names : list string)
  : list (string * TargetPodProto) :=
  (λ n, (n, TargetPodProto_new)) <$> names.

(** A method body that, whatever its outcome, keeps the active pod and
    every entry of [pods], and at most appends default entries for names
    that had none. *)
Definition read_only {A} (m : B A) : Prop :=
  ∀ pb, jina_pb2.active_pod (m pb).2 = jina_pb2.active_pod pb ∧
    ∃ added, pods (m pb).2 = pods pb ++ default_entries added ∧
      NoDup added ∧
      ∀ n, n ∈ added → MessageMap.lookup n (pods pb) = None.

(** Executable checks for [closed] and for the absence of self-loops. *)
Definition closedb (pb : RoutingTableProto) : bool :=
  forallb (λ e, forallb (λ b, MessageMap.contains b (pods pb))
                  (out_edges e.2))
    (pods pb).

Definition no_self_loopb (pb : RoutingTableProto) : bool :=
  forallb (λ e, negb (bool_decide (e.1 ∈ out_edges e.2))) (pods pb).

(** The two invariants of a table under construction: out-edges lead to
    pods of the table, and no name has two entries. *)
Definition well_formed (pb : RoutingTableProto) : Prop :=
  closed pb ∧ NoDup (MessageMap.keys (pods pb)).

(** No pod lists itself among its out-edges. *)
Definition no_self_loop (pb : RoutingTableProto) : Prop :=
  ∀ a, a ∉ edges_of a pb.

(** The calls with which a caller wires a table. *)
Inductive build_op : Type :=
  | AddPod (pod_name host : string) (port : Z)
  | AddEdge (from_pod to_pod : string).

Definition run_op (op : build_op) : B unit :=
  match op with
  | AddPod pod_name host port => add_pod pod_name host port
  | AddEdge from_pod to_pod => add_edge from_pod to_pod
  end.

(** The table after a script of wiring calls; a call that raises is
    passed over, as a caller that catches the exception would do. *)
Definition build (script : list build_op) (pb : RoutingTableProto)
  : RoutingTableProto :=
  foldl (λ pb op, (run_op op pb).2) pb script.

(** [A→B], [A→C], [B→D], [C→D], with addresses for [A] and [D]. *)
Definition diamond_script : list build_op :=
  [AddPod "A" "10.0.0.1" 8080; AddPod "D" "10.0.0.4" 8083;
   AddEdge "A" "B"; AddEdge "A" "C"; AddEdge "B" "D"; AddEdge "C" "D"].

Definition diamond : RoutingTableProto :=
  build diamond_script RoutingTableProto_new.

(** An instance of the external interface whose decoders accept the
    empty dict, the text of the empty object and the empty byte string,
    each as the empty message, and reject anything else. *)
Definition empty_only_decoders : Externals :=
  {| pydict := list (string * string);
     ParseDict := λ d, match d with
                       | [] => inr RoutingTableProto_new
                       | _ => inl (DecodeError "cannot parse dict")
                       end;
     Parse := λ s, if decide (s = "{}") then inr RoutingTableProto_new
                   else inl (DecodeError "cannot parse str");
     ParseFromString := λ b, match b with
                             | [] => inr RoutingTableProto_new
                             | _ => inl (DecodeError "cannot parse bytes")
                             end;
     typename := λ o, match o with
                      | PyInt _ => "int"
                      | PyFloat _ _ => "float"
                      | PyInstance c => c
                      end |}.

(** How often [n] occurs in a list of out-edges, and in all the
    out-edge lists of a table: the number of edges that end at [n]. *)
Definition occurrences (n : string) (edges : list string) : nat :=
  length (filter (λ x, x = n) edges).

Definition in_degree (n : string) (pb : RoutingTableProto) : nat :=
  sum_list ((λ e, occurrences n (out_edges e.2)) <$> pods pb).

(** ** The search under the interpreter's recursion limit *)

(** [RecursionError], which Python derives from [RuntimeError]. *)
Definition RecursionError : exn :=
  RuntimeError "maximum recursion depth exceeded".

(** [_topological_sort_pod] when the interpreter allows [depth] more
    nested calls of it (each with room for the helper calls it makes):
    the call that would exceed the limit raises before it marks its
    pod. *)
Fixpoint _topological_sort_pod_at (depth : nat) (pod : string)
    (vs : gmap string bool * list string)
  : B (gmap string bool * list string) :=
  match depth with
  | O => raise RecursionError
  | S depth' =>
      let visited := <[pod:=true]> (vs.1) in
      edges <- _get_out_edges pod ;;
      vs' <- for_each edges
               (λ '(visited, stack) out_pod,
                  let '(seen, visited) := visited_getitem out_pod visited in
                  if seen : bool then ret (visited, stack)
                  else _topological_sort_pod_at depth' out_pod
                         (visited, stack))
               (visited, vs.2) ;;
      ret (vs'.1, vs'.2 ++ [pod])
  end.

Definition _topological_sort_from_at (depth : nat) (keys : list string)
  : B (list string) :=
  pb <- get ;;
  vs <- for_each_pod (length (pods pb)) keys
          (λ '(visited, stack) pod,
             let '(seen, visited) := visited_getitem pod visited in
             if seen : bool then ret (visited, stack)
             else _topological_sort_pod_at depth pod (visited, stack))
          (∅, []) ;;
  ret (reverse (vs.2)).

Definition _topological_sort_at (depth : nat) : B (list string) :=
  pb <- get ;; _topological_sort_from_at depth (MessageMap.keys (pods pb)).

Definition is_acyclic_from_at (depth : nat) (keys : list string) : B bool :=
  topological_sorting <- _topological_sort_from_at depth keys ;;
  let position_lookup := position_dict topological_sorting in
  r <- scan_pods position_lookup topological_sorting ;;
  ret (default true r).

Definition is_acyclic_at (depth : nat) : B bool :=
  pb <- get ;; is_acyclic_from_at depth (MessageMap.keys (pods pb)).

(** ** Range-checked integer fields *)

(** The generated message refuses, with a [ValueError], an integer that
    does not fit the declared type of the field it is assigned to.  The
    schema that declares the types of [port] and [expected_parts] is not
    among the sources, so the two ranges are parameters. *)
Class FieldRanges : Type := {
  port_min : Z;
  port_max : Z;
  parts_min : Z;
  parts_max : Z
}.

Definition out_of_range (value : Z) : exn :=
  ValueError ("Value out of range: " +:+ pretty value).

(** [self.proto.expected_parts = value], with the range check. *)
Definition set_expected_parts_checked `{FieldRanges} (self : TargetPod.t)
    (value : Z) : B unit :=
  if bool_decide (parts_min ≤ value ≤ parts_max)
  then TargetPod.set_expected_parts self value
  else raise (out_of_range value).

(** [RoutingTable.add_edge], with the range check of the counter. *)
Definition add_edge_checked `{FieldRanges} (from_pod to_pod : string)
  : B unit :=
  src <- _get_target_pod from_pod ;;
  TargetPod.add_edge src to_pod ;;
  dst <- _get_target_pod to_pod ;;
  n <- TargetPod.expected_parts dst ;;
  set_expected_parts_checked dst (n + 1).

Definition add_edges_checked `{FieldRanges} (calls : list (string * string))
  : B unit :=
  for_each calls (λ _ '(from_pod, to_pod), add_edge_checked from_pod to_pod)
    tt.

(** [RoutingTable.add_pod], with the range check of the port. *)
Definition add_pod_checked `{FieldRanges} (pod_name host : string) (port : Z)
  : B unit :=
  present <- pods_contains pod_name ;;
  if present : bool then
    raise (ValueError (duplicate_message pod_name))
  else
    target <- pods_getitem pod_name ;;
    slot_modify target
      (λ tp, {| jina_pb2.host := host;
                jina_pb2.port := jina_pb2.port tp;
                jina_pb2.out_edges := jina_pb2.out_edges tp;
                jina_pb2.expected_parts := jina_pb2.expected_parts tp |}) ;;
    if bool_decide (port_min ≤ port ≤ port_max) then
      slot_modify target
        (λ tp, {| jina_pb2.host := jina_pb2.host tp;
                  jina_pb2.port := port;
                  jina_pb2.out_edges := jina_pb2.out_edges tp;
                  jina_pb2.expected_parts := jina_pb2.expected_parts tp |})
    else raise (out_of_range port).

(** A wiring call, with the range checks. *)
Definition run_op_checked `{FieldRanges} (op : build_op) : B unit :=
  match op with
  | AddPod pod_name host port => add_pod_checked pod_name host port
  | AddEdge from_pod to_pod => add_edge_checked from_pod to_pod
  end.

(** The table after a script of wiring calls with the range checks; a
    call that raises is passed over and what it had written by then
    stays. *)
Definition build_checked `{FieldRanges} (script : list build_op)
    (pb : RoutingTableProto) : RoutingTableProto :=
  foldl (λ pb op, (run_op_checked op pb).2) pb script.

(** Two tables with the same names in the same order and the same
    out-edges under every name; hosts, ports and counters may differ. *)
Definition same_wiring (pb pb' : RoutingTableProto) : Prop :=
  MessageMap.keys (pods pb) = MessageMap.keys (pods pb') ∧
  ∀ n, edges_of n pb = edges_of n pb'.

(** An instance: both fields unsigned and 32 bits wide. *)
Definition uint32_ranges : FieldRanges :=
  {| port_min := 0; port_max := 4294967295;
     parts_min := 0; parts_max := 4294967295 |}.

(** A table whose pod [B] has its counter at the top of that range,
    stored through the descriptor of the active pod. *)
Definition saturated : RoutingTableProto :=
  ((tp <- active_target_pod ;; TargetPod.set_expected_parts tp 4294967295)
     (set_active_pod "B" RoutingTableProto_new).2).2.

(** Unfolds the monad so that a method body becomes a plain term over
    the message. *)
Ltac st_unfold :=
  unfold bind, ret, get, put, raise, stuck, try_except in *; simpl in *.

(** ** Facts about the message map *)
Section message_map.
Context {V : Type}.
Implicit Types (m : list (string * V)) (k : string).

Lemma lookup_app m1 m2 k :
  MessageMap.lookup k (m1 ++ m2) =
  match MessageMap.lookup k m1 with
  | Some v => Some v
  | None => MessageMap.lookup k m2
  end.
Proof.
  induction m1 as [|[k' v] m1 IH]; simpl; [done|].
  by destruct (decide (k = k')).
Qed.

Lemma lookup_get_or_create dflt k k' m :
  MessageMap.lookup k (MessageMap.get_or_create dflt k' m) =
  if decide (k = k') then Some (default dflt (MessageMap.lookup k m))
  else MessageMap.lookup k m.
Proof.
  unfold MessageMap.get_or_create.
  destruct (MessageMap.lookup k' m) as [v|] eqn:Hk'.
  - destruct (decide (k = k')) as [->|]; [by rewrite Hk'|done].
  - rewrite lookup_app. simpl.
    destruct (decide (k = k')) as [->|]; [by rewrite Hk'|].
    by destruct (MessageMap.lookup k m).
Qed.

Lemma lookup_alter f k k' m :
  MessageMap.lookup k (MessageMap.alter f k' m) =
  if decide (k = k') then f <$> MessageMap.lookup k m
  else MessageMap.lookup k m.
Proof.
  induction m as [|[k0 v] m IH]; simpl.
  - by destruct (decide (k = k')).
  - destruct (decide (k' = k0)) as [->|Hne]; simpl;
      destruct (decide (k = k0)) as [->|]; simpl; try done.
    by rewrite decide_False.
Qed.

Lemma contains_true k m :
  MessageMap.contains k m = true ↔ is_Some (MessageMap.lookup k m).
Proof. unfold MessageMap.contains. by rewrite bool_decide_eq_true. Qed.

Lemma contains_false k m :
  MessageMap.contains k m = false ↔ MessageMap.lookup k m = None.
Proof.
  unfold MessageMap.contains.
  by rewrite bool_decide_eq_false, eq_None_not_Some.
Qed.

Lemma lookup_Some_keys k m :
  is_Some (MessageMap.lookup k m) ↔ k ∈ MessageMap.keys m.
Proof.
  unfold MessageMap.keys.
  induction m as [|[k' v] m IH]; simpl.
  - split; [by intros [? ?]|by intros ?%elem_of_nil].
  - rewrite elem_of_cons. destruct (decide (k = k')) as [->|Hne].
    + split; [by left|by eauto].
    + rewrite IH. split; [by right|]. by intros [?|?].
Qed.

Lemma get_or_create_present dflt k m :
  is_Some (MessageMap.lookup k m) → MessageMap.get_or_create dflt k m = m.
Proof. intros [v Hv]. unfold MessageMap.get_or_create. by rewrite Hv. Qed.

End message_map.

(** ** What each method does to the receiver's message *)

Lemma bind_Ok {S A B} (m : ST S A) (k : A → ST S B) s a s' :
  m s = (Ok a, s') → (x <- m ;; k x) s = k a s'.
Proof. intros Hm. unfold bind. by rewrite Hm. Qed.

Lemma with_pods_same pb : with_pods pb (pods pb) = pb.
Proof. by destruct pb. Qed.

Lemma get_or_create_is_Some {V} (dflt : V) k m :
  is_Some (MessageMap.lookup k (MessageMap.get_or_create dflt k m)).
Proof. rewrite lookup_get_or_create, decide_True by done. eauto. Qed.

Lemma pods_getitem_run name pb :
  pods_getitem name pb =
  (Ok (SlotRef name),
   with_pods pb (MessageMap.get_or_create TargetPodProto_new name (pods pb))).
Proof. reflexivity. Qed.

Lemma pods_getitem_present name pb :
  is_Some (MessageMap.lookup name (pods pb)) →
  pods_getitem name pb = (Ok (SlotRef name), pb).
Proof.
  intros Hin. rewrite pods_getitem_run, get_or_create_present by done.
  by rewrite with_pods_same.
Qed.

Lemma slot_read_run name pb tp :
  MessageMap.lookup name (pods pb) = Some tp →
  slot_read (SlotRef name) pb = (Ok tp, pb).
Proof. intros Hin. unfold slot_read. st_unfold. by rewrite Hin. Qed.

Lemma slot_modify_run name f pb :
  is_Some (MessageMap.lookup name (pods pb)) →
  slot_modify (SlotRef name) f pb =
  (Ok tt, with_pods pb (MessageMap.alter f name (pods pb))).
Proof. intros [tp Hin]. unfold slot_modify. st_unfold. by rewrite Hin. Qed.

Lemma _get_target_pod_run pod pb :
  _get_target_pod pod pb =
  (Ok (TargetPod.TargetPod (SlotRef pod)),
   with_pods pb (MessageMap.get_or_create TargetPodProto_new pod (pods pb))).
Proof. reflexivity. Qed.

Lemma _get_target_pod_present pod pb :
  is_Some (MessageMap.lookup pod (pods pb)) →
  _get_target_pod pod pb = (Ok (TargetPod.TargetPod (SlotRef pod)), pb).
Proof.
  intros Hin. unfold _get_target_pod.
  erewrite bind_Ok by by apply pods_getitem_present. done.
Qed.

Lemma TargetPod_add_edge_run name to_pod pb :
  is_Some (MessageMap.lookup name (pods pb)) →
  TargetPod.add_edge (TargetPod.TargetPod (SlotRef name)) to_pod pb =
  (Ok tt, with_pods pb (MessageMap.alter (append_edge to_pod) name (pods pb))).
Proof. apply slot_modify_run. Qed.

Lemma TargetPod_expected_parts_run name pb tp :
  MessageMap.lookup name (pods pb) = Some tp →
  TargetPod.expected_parts (TargetPod.TargetPod (SlotRef name)) pb =
  (Ok (expected_parts tp), pb).
Proof.
  intros Hin. unfold TargetPod.expected_parts.
  erewrite bind_Ok by by apply slot_read_run. done.
Qed.

Lemma TargetPod_out_edges_run name pb tp :
  MessageMap.lookup name (pods pb) = Some tp →
  TargetPod.out_edges (TargetPod.TargetPod (SlotRef name)) pb =
  (Ok (out_edges tp), pb).
Proof.
  intros Hin. unfold TargetPod.out_edges.
  erewrite bind_Ok by by apply slot_read_run. done.
Qed.

Lemma TargetPod_host_run name pb tp :
  MessageMap.lookup name (pods pb) = Some tp →
  TargetPod.host (TargetPod.TargetPod (SlotRef name)) pb = (Ok (host tp), pb).
Proof.
  intros Hin. unfold TargetPod.host.
  erewrite bind_Ok by by apply slot_read_run. done.
Qed.

Lemma TargetPod_port_run name pb tp :
  MessageMap.lookup name (pods pb) = Some tp →
  TargetPod.port (TargetPod.TargetPod (SlotRef name)) pb = (Ok (port tp), pb).
Proof.
  intros Hin. unfold TargetPod.port.
  erewrite bind_Ok by by apply slot_read_run. done.
Qed.

Lemma TargetPod_set_expected_parts_run name value pb :
  is_Some (MessageMap.lookup name (pods pb)) →
  TargetPod.set_expected_parts (TargetPod.TargetPod (SlotRef name)) value pb =
  (Ok tt, with_pods pb (MessageMap.alter (store_parts value) name (pods pb))).
Proof. apply slot_modify_run. Qed.

Lemma add_edge_run from_pod to_pod pb :
  add_edge from_pod to_pod pb =
  (Ok tt, with_pods pb (pods_after_edge from_pod to_pod (pods pb))).
Proof.
  unfold add_edge, pods_after_edge.
  erewrite bind_Ok by apply _get_target_pod_run.
  erewrite bind_Ok
    by (apply TargetPod_add_edge_run; apply get_or_create_is_Some).
  erewrite bind_Ok by apply _get_target_pod_run.
  cbn [pods with_pods].
  set (m3 := MessageMap.get_or_create _ to_pod _).
  destruct (get_or_create_is_Some TargetPodProto_new to_pod
    (MessageMap.alter (append_edge to_pod) from_pod
       (MessageMap.get_or_create TargetPodProto_new from_pod (pods pb))))
    as [tp Htp].
  fold m3 in Htp.
  erewrite bind_Ok by (apply TargetPod_expected_parts_run; exact Htp).
  rewrite TargetPod_set_expected_parts_run by (simpl; rewrite Htp; eauto).
  by rewrite Htp.
Qed.

Lemma lookup_pods_after_edge from_pod to_pod n m :
  MessageMap.lookup n (pods_after_edge from_pod to_pod m) =
  slot_after_edge from_pod to_pod n (MessageMap.lookup n m).
Proof.
  unfold pods_after_edge, slot_after_edge.
  rewrite !lookup_alter, !lookup_get_or_create, !lookup_alter,
    !lookup_get_or_create.
  rewrite (decide_True (P := to_pod = to_pod)) by done.
  destruct (decide (n = to_pod)) as [->|Hnt];
    destruct (decide (to_pod = from_pod)) as [->|Htf];
    repeat case_decide; simplify_eq; simpl; done.
Qed.

Lemma add_edges_run calls pb :
  ∃ pb', add_edges calls pb = (Ok tt, pb') ∧
    jina_pb2.active_pod pb' = jina_pb2.active_pod pb ∧
    ∀ n, MessageMap.lookup n (pods pb') =
         slot_after_edges calls n (MessageMap.lookup n (pods pb)).
Proof.
  revert pb. induction calls as [|[f t] calls IH]; intros pb.
  - by exists pb.
  - destruct (IH (with_pods pb (pods_after_edge f t (pods pb))))
      as (pb' & Hrun & Hact & Hlook).
    exists pb'. split_and!.
    + unfold add_edges in *. simpl.
      erewrite bind_Ok by apply add_edge_run. exact Hrun.
    + by rewrite Hact.
    + intros n. rewrite Hlook. simpl. by rewrite lookup_pods_after_edge.
Qed.

Lemma extend_extend tp es1 k1 es2 k2 :
  extend (extend tp es1 k1) es2 k2 = extend tp (es1 ++ es2) (k1 + k2).
Proof. unfold extend. simpl. f_equal; [by rewrite app_assoc|lia]. Qed.

Lemma targets_from_cons n f t calls :
  targets_from n ((f, t) :: calls) =
  (if decide (n = f) then [t] else []) ++ targets_from n calls.
Proof.
  unfold targets_from. rewrite filter_cons. simpl.
  by destruct (decide (n = f)).
Qed.

Lemma calls_to_cons n f t calls :
  Z.of_nat (length (calls_to n ((f, t) :: calls))) =
  (if decide (n = t) then 1 else 0) + Z.of_nat (length (calls_to n calls)).
Proof.
  unfold calls_to. rewrite filter_cons. simpl.
  destruct (decide (n = t)); simpl; lia.
Qed.

Lemma slot_after_edge_Some f t n tp :
  slot_after_edge f t n (Some tp) =
  Some (extend tp (if decide (n = f) then [t] else [])
                  (if decide (n = t) then 1 else 0)).
Proof.
  unfold slot_after_edge, extend, append_edge, store_parts.
  destruct tp as [h p es k].
  repeat case_decide; simpl; rewrite ?app_nil_r, ?Z.add_0_r; done.
Qed.

Lemma slot_after_edges_Some calls n tp :
  slot_after_edges calls n (Some tp) =
  Some (extend tp (targets_from n calls)
                  (Z.of_nat (length (calls_to n calls)))).
Proof.
  revert tp. induction calls as [|[f t] calls IH]; intros tp.
  - destruct tp. unfold extend. simpl. by rewrite app_nil_r, Z.add_0_r.
  - unfold slot_after_edges in *. simpl.
    rewrite slot_after_edge_Some, IH, extend_extend.
    by rewrite targets_from_cons, calls_to_cons.
Qed.

Lemma slot_after_edges_None calls n :
  slot_after_edges calls n None =
  if decide (mentions n calls)
  then Some (extend TargetPodProto_new (targets_from n calls)
                    (Z.of_nat (length (calls_to n calls))))
  else None.
Proof.
  induction calls as [|[f t] calls IH].
  - rewrite decide_False; [done|].
    intros [H|H]; simpl in H; by apply elem_of_nil in H.
  - unfold slot_after_edges in *. simpl.
    destruct (decide (n = f ∨ n = t)) as [Hn|Hn].
    + rewrite decide_True
        by (unfold mentions; simpl; rewrite !elem_of_cons; tauto).
      transitivity (slot_after_edges calls n
        (Some (extend TargetPodProto_new
                 (if decide (n = f) then [t] else [])
                 (if decide (n = t) then 1 else 0)))).
      * unfold slot_after_edges. f_equal.
        unfold slot_after_edge, extend, append_edge, store_parts.
        clear IH. repeat case_decide; simpl; try done; tauto.
      * rewrite slot_after_edges_Some, extend_extend.
        by rewrite targets_from_cons, calls_to_cons.
    + assert (n ≠ f ∧ n ≠ t) as [Hf Ht] by tauto.
      assert (slot_after_edge f t n None = None) as ->.
      { unfold slot_after_edge.
        by rewrite (decide_False (P := n = f)), (decide_False (P := n = t)). }
      rewrite IH, targets_from_cons, calls_to_cons.
      rewrite (decide_False (P := n = f)), (decide_False (P := n = t)) by done.
      simpl. destruct (decide (mentions n calls)) as [Hm|Hm].
      * rewrite decide_True; [done|].
        unfold mentions in *. simpl. rewrite !elem_of_cons. tauto.
      * rewrite decide_False; [done|].
        unfold mentions in *. simpl. rewrite !elem_of_cons. tauto.
Qed.

(** ** Reading a pod through the table *)

Lemma read_expected_parts_run n pb :
  read_expected_parts n pb =
  (Ok (parts_of n pb),
   with_pods pb (MessageMap.get_or_create TargetPodProto_new n (pods pb))).
Proof.
  unfold read_expected_parts, parts_of.
  erewrite bind_Ok by apply _get_target_pod_run.
  erewrite TargetPod_expected_parts_run; [done|].
  simpl. by rewrite lookup_get_or_create, decide_True.
Qed.

Lemma _get_out_edges_run n pb :
  _get_out_edges n pb =
  (Ok (edges_of n pb),
   with_pods pb (MessageMap.get_or_create TargetPodProto_new n (pods pb))).
Proof.
  unfold _get_out_edges, edges_of.
  erewrite bind_Ok by apply _get_target_pod_run.
  erewrite TargetPod_out_edges_run; [done|].
  simpl. by rewrite lookup_get_or_create, decide_True.
Qed.

Lemma _get_out_edges_present n pb tp :
  MessageMap.lookup n (pods pb) = Some tp →
  _get_out_edges n pb = (Ok (out_edges tp), pb).
Proof.
  intros Hn. rewrite _get_out_edges_run, get_or_create_present by eauto.
  unfold edges_of. by rewrite Hn, with_pods_same.
Qed.

(** ** Operations that leave the counters alone *)

Section keeps_parts.

Lemma keeps_ret {A} (a : A) : keeps_parts (ret a).
Proof. by intros pb k. Qed.

Lemma keeps_raise {A} e : keeps_parts (raise (A := A) e).
Proof. by intros pb k. Qed.

Lemma keeps_stuck {A} : keeps_parts (stuck (A := A)).
Proof. by intros pb k. Qed.

Lemma keeps_get : keeps_parts get.
Proof. by intros pb k. Qed.

Lemma keeps_bind {A A'} (m : B A) (f : A → B A') :
  keeps_parts m → (∀ a, keeps_parts (f a)) → keeps_parts (bind m f).
Proof.
  intros Hm Hf pb k. unfold bind. specialize (Hm pb k).
  destruct (m pb) as [[a| |] pb']; simpl in *; [|done..].
  by rewrite Hf.
Qed.

Lemma keeps_for_each {A X} (xs : list X) (body : A → X → B A) acc :
  (∀ a x, keeps_parts (body a x)) → keeps_parts (for_each xs body acc).
Proof.
  intros Hbody. revert acc.
  induction xs as [|x xs IH]; intros acc; simpl.
  - apply keeps_ret.
  - apply keeps_bind; [apply Hbody|]. intros a. apply IH.
Qed.

Lemma keeps_dict_getitem d k : keeps_parts (dict_getitem d k).
Proof. unfold dict_getitem. destruct (d !! k); by intros pb k'. Qed.

Lemma keeps_pods_contains name : keeps_parts (pods_contains name).
Proof. by intros pb k. Qed.

Lemma keeps_pods_getitem name : keeps_parts (pods_getitem name).
Proof.
  intros pb k. rewrite pods_getitem_run. unfold parts_of. simpl.
  rewrite lookup_get_or_create. case_decide; [|done].
  by destruct (MessageMap.lookup k (pods pb)).
Qed.

Lemma keeps_slot_read r : keeps_parts (slot_read r).
Proof.
  intros pb k. unfold slot_read. st_unfold.
  by destruct (MessageMap.lookup (slot_key r) (pods pb)).
Qed.

Lemma keeps_slot_modify r f :
  (∀ tp, expected_parts (f tp) = expected_parts tp) →
  keeps_parts (slot_modify r f).
Proof.
  intros Hf pb k. unfold slot_modify. st_unfold.
  destruct (MessageMap.lookup (slot_key r) (pods pb)) eqn:Hr; [|done].
  unfold parts_of. simpl. rewrite lookup_alter. case_decide; [|done].
  subst k. rewrite Hr. simpl. apply Hf.
Qed.

Lemma keeps_set_active_pod name : keeps_parts (set_active_pod name).
Proof. by intros pb k. Qed.

Lemma keeps_get_target_pod pod : keeps_parts (_get_target_pod pod).
Proof.
  apply keeps_bind; [apply keeps_pods_getitem|]. intros. apply keeps_ret.
Qed.

Lemma keeps_get_out_edges pod : keeps_parts (_get_out_edges pod).
Proof.
  apply keeps_bind; [apply keeps_get_target_pod|]. intros tp.
  apply keeps_bind; [apply keeps_slot_read|]. intros. apply keeps_ret.
Qed.

Lemma keeps_active_target_pod : keeps_parts active_target_pod.
Proof.
  apply keeps_bind; [by intros pb k|]. intros name.
  apply keeps_bind; [apply keeps_pods_getitem|]. intros. apply keeps_ret.
Qed.

Lemma keeps_add_pod name h p : keeps_parts (add_pod name h p).
Proof.
  apply keeps_bind; [apply keeps_pods_contains|]. intros [|].
  - apply keeps_raise.
  - apply keeps_bind; [apply keeps_pods_getitem|]. intros r.
    apply keeps_bind; [by apply keeps_slot_modify|].
    intros _. by apply keeps_slot_modify.
Qed.

Lemma keeps_topological_sort_pod fuel pod vs :
  keeps_parts (_topological_sort_pod fuel pod vs).
Proof.
  revert pod vs. induction fuel as [|fuel IH]; intros pod vs; simpl.
  - apply keeps_stuck.
  - apply keeps_bind; [apply keeps_get_out_edges|]. intros edges.
    apply keeps_bind; [|intros; apply keeps_ret].
    apply keeps_for_each. intros [visited stack] x.
    destruct (visited_getitem x visited) as [[|] visited'];
      [apply keeps_ret|apply IH].
Qed.

Lemma keeps_for_each_pod {A} size keys (body : A → string → B A) acc :
  (∀ a x, keeps_parts (body a x)) →
  keeps_parts (for_each_pod size keys body acc).
Proof.
  intros Hbody. revert acc.
  induction keys as [|x keys IH]; intros acc; simpl.
  - apply keeps_bind; [apply keeps_get|]. intros pb.
    case_decide; [apply keeps_ret|apply keeps_raise].
  - apply keeps_bind; [apply keeps_get|]. intros pb.
    case_decide; [|apply keeps_raise].
    apply keeps_bind; [apply Hbody|]. intros a. apply IH.
Qed.

Lemma keeps_topological_sort_from keys :
  keeps_parts (_topological_sort_from keys).
Proof.
  apply keeps_bind; [apply keeps_get|]. intros pb.
  apply keeps_bind; [|intros; apply keeps_ret].
  apply keeps_for_each_pod. intros [visited stack] x.
  destruct (visited_getitem x visited) as [[|] visited'];
    [apply keeps_ret|apply keeps_topological_sort_pod].
Qed.

Lemma keeps_scan_out_edges d first edges :
  keeps_parts (scan_out_edges d first edges).
Proof.
  induction edges as [|second edges IH]; simpl; [apply keeps_ret|].
  apply keeps_bind; [apply keeps_dict_getitem|]. intros p1.
  apply keeps_bind; [apply keeps_dict_getitem|]. intros p2.
  case_decide; [apply keeps_ret|apply IH].
Qed.

Lemma keeps_scan_pods d order : keeps_parts (scan_pods d order).
Proof.
  induction order as [|first order IH]; simpl; [apply keeps_ret|].
  apply keeps_bind; [apply keeps_get_out_edges|]. intros edges.
  apply keeps_bind; [apply keeps_scan_out_edges|]. intros [b|].
  - apply keeps_ret.
  - apply IH.
Qed.

Lemma keeps_is_acyclic_from keys : keeps_parts (is_acyclic_from keys).
Proof.
  apply keeps_bind; [apply keeps_topological_sort_from|]. intros ts.
  apply keeps_bind; [apply keeps_scan_pods|]. intros. apply keeps_ret.
Qed.

Lemma keeps_is_acyclic : keeps_parts is_acyclic.
Proof.
  apply keeps_bind; [apply keeps_get|]. intros.
  apply keeps_is_acyclic_from.
Qed.

End keeps_parts.

(** ** The object heap *)

Lemma call_run {A} (l : loc) (m : B A) (h : heap) pb r pb' :
  h !! l = Some pb → m pb = (r, pb') → call l m h = (r, <[l:=pb']> h).
Proof. intros Hl Hm. unfold call. by rewrite Hl, Hm. Qed.

Lemma call_other {A} (l l' : loc) (m : B A) (h : heap) :
  l ≠ l' → (call l m h).2 !! l' = h !! l'.
Proof.
  intros Hne. unfold call. destruct (h !! l) as [pb|]; [|done].
  destruct (m pb) as [r pb']. simpl. by apply list_lookup_insert_ne.
Qed.

Lemma call_keeps_parts {A} (l l' : loc) (m : B A) (h : heap) k :
  keeps_parts m →
  parts_of k <$> (call l m h).2 !! l' = parts_of k <$> h !! l'.
Proof.
  intros Hm. destruct (decide (l = l')) as [<-|Hne];
    [|by rewrite call_other].
  unfold call. destruct (h !! l) as [pb|] eqn:Hl; [|by simpl; rewrite Hl].
  specialize (Hm pb k). destruct (m pb) as [r pb']. cbn [snd] in *.
  rewrite list_lookup_insert_eq by by eapply lookup_lt_Some.
  simpl. by rewrite Hm.
Qed.

Lemma insert_last {A} (h : list A) (x y : A) :
  <[length h:=y]> (h ++ [x]) = h ++ [y].
Proof.
  rewrite insert_app_r_alt by lia. by rewrite Nat.sub_diag.
Qed.

Section constructor.
Context `{Externals}.

Lemma init_copy (g : t) (h : heap) pb :
  h !! _pb_body g = Some pb →
  __init__ (GraphTable g) true h = (Ok (RoutingTable (length h)), h ++ [pb]).
Proof.
  intros Hg. unfold __init__, try_except, CopyFrom.
  erewrite bind_Ok by reflexivity.
  assert ((h ++ [RoutingTableProto_new]) !! _pb_body g = Some pb) as Hg'
    by by apply lookup_app_l_Some.
  erewrite bind_Ok; [reflexivity|].
  erewrite bind_Ok; [|by eapply call_run].
  rewrite list_insert_id by done.
  erewrite call_run; [| |reflexivity].
  - by rewrite insert_last.
  - by rewrite lookup_app_r, Nat.sub_diag by lia.
Qed.

Lemma init_share (g : t) (h : heap) :
  __init__ (GraphTable g) false h = (Ok g, h ++ [RoutingTableProto_new]).
Proof. by destruct g. Qed.

(** The loop of [get_next_targets], for any list of out-edges. *)
Lemma next_targets_loop (self : t) (edges : list string) (h : heap) pb acc :
  h !! _pb_body self = Some pb →
  for_each edges
    (λ targets next_pod_index,
       new_graph <- __init__ (GraphTable self) true ;;
       call (_pb_body new_graph) (set_active_pod next_pod_index) ;;
       ret (targets ++ [new_graph]))
    acc h =
  (Ok (acc ++ (RoutingTable <$> seq (length h) (length edges))),
   h ++ (with_active pb <$> edges)).
Proof.
  revert h acc. induction edges as [|e edges IH]; intros h acc Hself.
  - simpl. by rewrite !app_nil_r.
  - cbn [for_each].
    erewrite bind_Ok; cycle 1.
    { erewrite bind_Ok by by apply init_copy.
      erewrite bind_Ok; [reflexivity|].
      eapply call_run; [|reflexivity]. simpl.
      by rewrite lookup_app_r, Nat.sub_diag by lia. }
    simpl. rewrite insert_last.
    rewrite IH by by apply lookup_app_l_Some.
    rewrite length_app. simpl.
    rewrite <-!app_assoc. simpl.
    by replace (length h + 1)%nat with (S (length h)) by lia.
Qed.

Lemma get_next_targets_run (self : t) (h : heap) pb tp :
  h !! _pb_body self = Some pb →
  MessageMap.lookup (jina_pb2.active_pod pb) (pods pb) = Some tp →
  get_next_targets self h =
  (Ok (RoutingTable <$> seq (length h) (length (out_edges tp))),
   h ++ (with_active pb <$> out_edges tp)).
Proof.
  intros Hself Hactive. unfold get_next_targets.
  erewrite bind_Ok; cycle 1.
  { eapply call_run; [done|].
    erewrite bind_Ok by reflexivity.
    by apply _get_out_edges_present. }
  rewrite list_insert_id by done.
  by erewrite next_targets_loop.
Qed.

End constructor.

(** ** Adding pods *)

Lemma alter_app_new {V} (f : V → V) k (m : list (string * V)) v :
  MessageMap.lookup k m = None →
  MessageMap.alter f k (m ++ [(k, v)]) = m ++ [(k, f v)].
Proof.
  induction m as [|[k' v'] m IH]; simpl; intros Hk.
  - by rewrite decide_True.
  - destruct (decide (k = k')); [done|]. by rewrite IH.
Qed.

Lemma add_pod_taken name h p pb :
  MessageMap.contains name (pods pb) = true →
  add_pod name h p pb = (Raise (ValueError (duplicate_message name)), pb).
Proof.
  intros Hin. unfold add_pod.
  erewrite bind_Ok by reflexivity. simpl. by rewrite Hin.
Qed.

Lemma add_pod_fresh name h p pb :
  MessageMap.contains name (pods pb) = false →
  add_pod name h p pb =
  (Ok tt,
   with_pods pb
     (pods pb ++ [(name, {| host := h; port := p; out_edges := [];
                            expected_parts := 0 |})])).
Proof.
  intros Hout. unfold add_pod.
  erewrite bind_Ok by reflexivity. simpl. rewrite Hout.
  apply contains_false in Hout.
  erewrite bind_Ok by apply pods_getitem_run.
  unfold MessageMap.get_or_create. rewrite Hout.
  erewrite bind_Ok; cycle 1.
  { apply slot_modify_run. simpl.
    rewrite lookup_app, Hout. simpl. rewrite decide_True by done. eauto. }
  cbn [pods with_pods]. rewrite alter_app_new by done.
  rewrite slot_modify_run; cycle 1.
  { simpl. rewrite lookup_app, Hout. simpl.
    rewrite decide_True by done. eauto. }
  cbn [pods with_pods]. by rewrite alter_app_new.
Qed.

(** C4: for a name that is already a key of [pods], [add_pod] raises the
    duplicate-node [ValueError] and leaves the table exactly as it was.
    In particular, whatever a first [add_pod name host1 port1] did, a
    second [add_pod] with the same name raises and changes nothing, and
    when the first call succeeded the node still reads [host1] and
    [port1] afterwards. *)
Theorem add_pod_duplicate (name host : string) (port : Z) :
  (∀ pb, MessageMap.contains name (pods pb) = true →
         add_pod name host port pb =
         (Raise (ValueError (duplicate_message name)), pb)) ∧
  (∀ pb0 host1 port1,
     let first := add_pod name host1 port1 pb0 in
     let second := add_pod name host port first.2 in
     second = (Raise (ValueError (duplicate_message name)), first.2) ∧
     (first.1 = Ok tt →
      TargetPod.host (TargetPod.TargetPod (SlotRef name)) second.2
        = (Ok host1, second.2) ∧
      TargetPod.port (TargetPod.TargetPod (SlotRef name)) second.2
        = (Ok port1, second.2))).
Proof.
  split; [intros pb; apply add_pod_taken|].
  intros pb0 host1 port1.
  destruct (MessageMap.contains name (pods pb0)) eqn:Hin; simpl.
  - rewrite (add_pod_taken _ host1) by done. simpl.
    rewrite add_pod_taken by done. split; [done|]. by intros ?.
  - rewrite (add_pod_fresh _ host1) by done.
    apply contains_false in Hin.
    set (tp := {| host := host1; port := port1; out_edges := [];
                  expected_parts := 0 |}).
    assert (MessageMap.lookup name (pods pb0 ++ [(name, tp)]) = Some tp)
      as Hnew.
    { rewrite lookup_app, Hin. simpl. by rewrite decide_True. }
    cbn [fst snd].
    rewrite add_pod_taken
      by (apply contains_true; simpl; rewrite Hnew; eauto).
    split; [done|]. intros _. cbn [fst snd]. split.
    + by erewrite TargetPod_host_run by exact Hnew.
    + by erewrite TargetPod_port_run by exact Hnew.
Qed.

Lemma add_pod_duplicate_witness :
  MessageMap.contains "A" (pods (add_pod "A" "10.0.0.1" 8080
                                   RoutingTableProto_new).2) = true ∧
  add_pod "A" "10.0.0.2" 9090
    (add_pod "A" "10.0.0.1" 8080 RoutingTableProto_new).2 =
  (Raise (ValueError (duplicate_message "A")),
   (add_pod "A" "10.0.0.1" 8080 RoutingTableProto_new).2).
Proof.
  split; [reflexivity|].
  apply (proj1 (add_pod_duplicate "A" "10.0.0.2" 9090)). reflexivity.
Defined.

(** ** The active pod *)

Lemma active_target_pod_present pb :
  MessageMap.contains (jina_pb2.active_pod pb) (pods pb) = true →
  active_target_pod pb =
  (Ok (TargetPod.TargetPod (SlotRef (jina_pb2.active_pod pb))), pb).
Proof.
  intros Hin%contains_true. unfold active_target_pod.
  erewrite bind_Ok by reflexivity.
  erewrite bind_Ok by by apply pods_getitem_present. done.
Qed.

(** C3, as the code has it: reading [active_target_pod] when the active
    name is not a key of [pods] raises nothing.  The map access creates a
    default entry under that name at the end of [pods], and the call
    returns a descriptor for it, which reads as the empty host, port 0,
    no out-edges and expected parts 0. *)
Theorem active_target_pod_creates (pb : RoutingTableProto) :
  MessageMap.contains (jina_pb2.active_pod pb) (pods pb) = false →
  let pb' := with_pods pb
               (pods pb ++ [(jina_pb2.active_pod pb, TargetPodProto_new)]) in
  active_target_pod pb =
    (Ok (TargetPod.TargetPod (SlotRef (jina_pb2.active_pod pb))), pb') ∧
  slot_read (SlotRef (jina_pb2.active_pod pb)) pb'
    = (Ok TargetPodProto_new, pb').
Proof.
  intros Hout%contains_false. simpl. split.
  - unfold active_target_pod.
    erewrite bind_Ok by reflexivity.
    erewrite bind_Ok by apply pods_getitem_run.
    unfold MessageMap.get_or_create. by rewrite Hout.
  - apply slot_read_run. simpl. rewrite lookup_app, Hout. simpl.
    by rewrite decide_True.
Qed.

Lemma active_target_pod_creates_witness :
  MessageMap.contains (jina_pb2.active_pod dangling_active)
    (pods dangling_active) = false ∧
  active_target_pod dangling_active =
    (Ok (TargetPod.TargetPod (SlotRef "A")),
     {| pods := [("A", TargetPodProto_new)]; jina_pb2.active_pod := "A" |}).
Proof.
  split; [reflexivity|].
  apply (active_target_pod_creates dangling_active). reflexivity.
Defined.

(** C3 as stated fails: on the empty table with active pod ["A"] the read
    returns a descriptor and adds an entry, so it is not the case that it
    raises and leaves the table alone. *)
Lemma active_target_pod_missing_counterexample :
  MessageMap.contains (jina_pb2.active_pod dangling_active)
    (pods dangling_active) = false ∧
  active_target_pod dangling_active =
    (Ok (TargetPod.TargetPod (SlotRef "A")),
     {| pods := [("A", TargetPodProto_new)]; jina_pb2.active_pod := "A" |}) ∧
  ¬ (∃ e, active_target_pod dangling_active = (Raise e, dangling_active)).
Proof.
  split; [reflexivity|]. split; [reflexivity|].
  intros [e He]. vm_compute in He. discriminate He.
Qed.

(** ** Fan-in counters and edge order *)

Lemma add_edges_lookup calls n :
  ∃ pb, add_edges calls RoutingTableProto_new = (Ok tt, pb) ∧
    jina_pb2.active_pod pb = EmptyString ∧
    MessageMap.lookup n (pods pb) =
    if decide (mentions n calls)
    then Some (extend TargetPodProto_new (targets_from n calls)
                      (Z.of_nat (length (calls_to n calls))))
    else None.
Proof.
  destruct (add_edges_run calls RoutingTableProto_new)
    as (pb & Hrun & Hact & Hlook).
  exists pb. split_and!; [done..|].
  rewrite Hlook. simpl. apply slot_after_edges_None.
Qed.

Lemma calls_to_not_mentioned n calls :
  ¬ mentions n calls → calls_to n calls = [].
Proof.
  intros Hm. unfold calls_to.
  induction calls as [|[f t] calls IH]; [done|].
  rewrite filter_cons. simpl. unfold mentions in *. simpl in Hm.
  rewrite !elem_of_cons in Hm.
  rewrite decide_False by tauto. apply IH. tauto.
Qed.

Lemma targets_from_not_mentioned n calls :
  ¬ mentions n calls → targets_from n calls = [].
Proof.
  intros Hm. unfold targets_from.
  induction calls as [|[f t] calls IH]; [done|].
  rewrite filter_cons. simpl. unfold mentions in *. simpl in Hm.
  rewrite !elem_of_cons in Hm.
  rewrite decide_False by tauto. apply IH. tauto.
Qed.

Lemma add_edges_parts calls n :
  ∃ pb, add_edges calls RoutingTableProto_new = (Ok tt, pb) ∧
    parts_of n pb = Z.of_nat (length (calls_to n calls)) ∧
    edges_of n pb = targets_from n calls.
Proof.
  destruct (add_edges_lookup calls n) as (pb & Hrun & _ & Hlook).
  exists pb. split; [done|]. unfold parts_of, edges_of. rewrite Hlook.
  case_decide; simpl; [done|].
  by rewrite calls_to_not_mentioned, targets_from_not_mentioned.
Qed.

Lemma calls_to_Permutation n calls calls' :
  calls' ≡ₚ calls → length (calls_to n calls') = length (calls_to n calls).
Proof. intros Hp. unfold calls_to. by rewrite Hp. Qed.

Lemma add_edge_creates_endpoints from_pod to_pod pb :
  is_Some (MessageMap.lookup from_pod (pods (add_edge from_pod to_pod pb).2)) ∧
  is_Some (MessageMap.lookup to_pod (pods (add_edge from_pod to_pod pb).2)).
Proof.
  rewrite add_edge_run. simpl. rewrite !lookup_pods_after_edge.
  unfold slot_after_edge.
  split; repeat case_decide; simplify_eq; eauto.
Qed.

(** C8: after any sequence of [add_edge] calls on an empty table, the
    out-edge list read for a name [n] is the list of targets of exactly
    the calls whose source was [n], in call order and with repetitions
    kept. *)
Theorem add_edges_out_edges (calls : list (string * string)) (n : string) :
  ∃ pb, add_edges calls RoutingTableProto_new = (Ok tt, pb) ∧
    (_get_out_edges n pb).1 = Ok (targets_from n calls).
Proof.
  destruct (add_edges_parts calls n) as (pb & Hrun & _ & Hedges).
  exists pb. split; [done|].
  rewrite _get_out_edges_run. simpl. by rewrite Hedges.
Qed.

(** ** Construction, copies and next hops *)

Section tables.
Context `{Externals}.

(** C5: when the active pod of [self] has the out-edge list [[b; c]],
    [get_next_targets] returns exactly two tables.  Each wraps a
    message of its own, allocated by the call, so none of the three
    tables shares a message with another; the first message is the
    source's with [active_pod] set to [b], the second the source's with
    [active_pod] set to [c], and the source's message is as it was.
    When the active pod has no out-edges the result is the empty list
    and the heap is unchanged. *)
Theorem get_next_targets_fan_out (h : heap) (self : t)
    (pb : RoutingTableProto) (tp : TargetPodProto) (b c : string) :
  h !! _pb_body self = Some pb →
  MessageMap.lookup (jina_pb2.active_pod pb) (pods pb) = Some tp →
  (out_edges tp = [b; c] →
   get_next_targets self h =
     (Ok [RoutingTable (length h); RoutingTable (S (length h))],
      h ++ [with_active pb b; with_active pb c]) ∧
   _pb_body self ≠ length h ∧ _pb_body self ≠ S (length h) ∧
   (h ++ [with_active pb b; with_active pb c]) !! _pb_body self = Some pb) ∧
  (out_edges tp = [] → get_next_targets self h = (Ok [], h)).
Proof.
  intros Hself Hactive.
  pose proof (lookup_lt_Some _ _ _ Hself) as Hlt.
  rewrite (get_next_targets_run self h pb tp) by done.
  split; intros ->; simpl.
  - split_and!; [done|lia|lia|]. by apply lookup_app_l_Some.
  - by rewrite app_nil_r.
Qed.

(** C6: a table [S] built from [T] with [copy=True] wraps a message of
    its own that starts out equal to [T]'s.  Whatever method body then
    runs on [S] (the [active_pod] setter, [add_edge], [add_pod] or any
    other), the message of [T] stays what it was, and whatever runs on
    [T] leaves the message of [S] what it was. *)
Theorem copy_isolation (h : heap) (T : t) (pb : RoutingTableProto) :
  h !! _pb_body T = Some pb →
  ∃ S h0, __init__ (GraphTable T) true h = (Ok S, h0) ∧
    _pb_body S ≠ _pb_body T ∧
    h0 !! _pb_body S = Some pb ∧
    h0 !! _pb_body T = Some pb ∧
    (∀ A (m : B A), (call (_pb_body S) m h0).2 !! _pb_body T = Some pb) ∧
    (∀ A (m : B A), (call (_pb_body T) m h0).2 !! _pb_body S = Some pb).
Proof.
  intros HT. pose proof (lookup_lt_Some _ _ _ HT) as Hlt.
  exists (RoutingTable (length h)), (h ++ [pb]).
  assert ((h ++ [pb]) !! length h = Some pb) as HS
    by by rewrite lookup_app_r, Nat.sub_diag by lia.
  assert ((h ++ [pb]) !! _pb_body T = Some pb) as HT'
    by by apply lookup_app_l_Some.
  simpl. split_and!; [by apply init_copy|lia|done|done|..].
  - intros A m. rewrite call_other by lia. done.
  - intros A m. rewrite call_other by lia. done.
Qed.

(** By contrast, a table built with [copy=False] wraps the very message
    of its source: setting its active pod is seen through the
    source. *)
Lemma reference_shares (h : heap) (T : t) (pb : RoutingTableProto) name :
  h !! _pb_body T = Some pb →
  ∃ S h0, __init__ (GraphTable T) false h = (Ok S, h0) ∧
    (call (_pb_body S) (set_active_pod name) h0).2 !! _pb_body T
      = Some (with_active pb name).
Proof.
  intros HT. pose proof (lookup_lt_Some _ _ _ HT) as Hlt.
  exists T, (h ++ [RoutingTableProto_new]). split; [apply init_share|].
  erewrite call_run; [| by apply lookup_app_l_Some | reflexivity].
  simpl. rewrite list_lookup_insert_eq; [done|].
  rewrite length_app. simpl. lia.
Qed.

(** C9: whenever the constructor raises, the exception is
    [BadRequestType].  An argument of an unsupported type raises
    [BadRequestType] caused by the [ValueError] naming the type, and a
    dict, string or bytes argument that its decoder rejects raises
    [BadRequestType] caused by the decoder's exception. *)
Theorem init_bad_input (copy : bool) (h : heap) :
  (∀ graph e, (__init__ graph copy h).1 = Raise e →
     ∃ msg cause, e = BadRequestType msg cause) ∧
  (∀ o, (__init__ (GraphOther o) copy h).1 =
     Raise (BadRequestType "fail to construct a RoutingTable object"
              (ValueError (typename o +:+ " is not recognizable")))) ∧
  (∀ d e, ParseDict d = inl e →
     (__init__ (GraphDict d) copy h).1 =
     Raise (BadRequestType "fail to construct a RoutingTable object" e)) ∧
  (∀ s e, Parse s = inl e →
     (__init__ (GraphStr s) copy h).1 =
     Raise (BadRequestType "fail to construct a RoutingTable object" e)) ∧
  (∀ b e, ParseFromString b = inl e →
     (__init__ (GraphBytes b) copy h).1 =
     Raise (BadRequestType "fail to construct a RoutingTable object" e)).
Proof.
  split_and!.
  - intros graph e. unfold __init__.
    erewrite bind_Ok by reflexivity.
    unfold try_except.
    match goal with
    | |- context [match ?m ?s with _ => _ end] =>
        destruct (m s) as [[a|e'|] h'] eqn:Hm
    end; simpl; [done| |done].
    intros [= <-]. eauto.
  - intros o. reflexivity.
  - intros d e Hd. unfold __init__, try_except.
    erewrite bind_Ok by reflexivity. by rewrite Hd.
  - intros s e Hs. unfold __init__, try_except.
    erewrite bind_Ok by reflexivity. by rewrite Hs.
  - intros b e Hb. unfold __init__, try_except.
    erewrite bind_Ok by reflexivity. by rewrite Hb.
Qed.

(** C10: constructing from [None], with either value of [copy], raises
    nothing and returns a table over a freshly allocated message that
    has no pods and whose active pod is the empty string, whereas every
    other unrecognised argument raises [BadRequestType]. *)
Theorem init_none (copy : bool) (h : heap) :
  __init__ GraphNone copy h =
    (Ok (RoutingTable (length h)), h ++ [RoutingTableProto_new]) ∧
  (h ++ [RoutingTableProto_new]) !! length h = Some RoutingTableProto_new ∧
  pods RoutingTableProto_new = [] ∧
  jina_pb2.active_pod RoutingTableProto_new = EmptyString ∧
  (∀ o, ∃ msg cause,
     (__init__ (GraphOther o) copy h).1 = Raise (BadRequestType msg cause)).
Proof.
  split_and!; [done| |done|done|].
  - by rewrite lookup_app_r, Nat.sub_diag by lia.
  - intros o. by eexists _, _.
Qed.

End tables.

Lemma get_next_targets_fan_out_witness :
  [fan_out] !! 0%nat = Some fan_out ∧
  get_next_targets (H := no_decoders) (RoutingTable 0) [fan_out] =
    (Ok [RoutingTable 1; RoutingTable 2],
     [fan_out; with_active fan_out "B"; with_active fan_out "C"]).
Proof.
  split; [reflexivity|].
  destruct (get_next_targets_fan_out (H := no_decoders) [fan_out]
              (RoutingTable 0) fan_out
              {| host := EmptyString; port := 0; out_edges := ["B"; "C"];
                 expected_parts := 0 |} "B" "C" eq_refl eq_refl)
    as [Htwo _].
  destruct (Htwo eq_refl) as [Hrun _]. exact Hrun.
Defined.

Lemma copy_isolation_witness :
  ∃ S h0,
    __init__ (H := no_decoders) (GraphTable (RoutingTable 0)) true [fan_out]
      = (Ok S, h0) ∧
    (call (_pb_body S) (add_edge "C" "D") h0).2 !! 0%nat = Some fan_out.
Proof.
  destruct (copy_isolation (H := no_decoders) [fan_out] (RoutingTable 0)
              fan_out eq_refl)
    as (S & h0 & Hinit & _ & _ & _ & Hfrom_copy & _).
  exists S, h0. split; [exact Hinit|]. apply Hfrom_copy.
Defined.

Lemma init_bad_input_witness :
  ParseDict (Externals := no_decoders) [("pods", "7")]
    = inl (DecodeError "cannot parse dict") ∧
  (__init__ (@GraphDict no_decoders [("pods", "7")]) false []).1 =
  Raise (BadRequestType "fail to construct a RoutingTable object"
           (DecodeError "cannot parse dict")) ∧
  (__init__ (@GraphOther no_decoders (PyInt 7)) false []).1 =
  Raise (BadRequestType "fail to construct a RoutingTable object"
           (ValueError "int is not recognizable")).
Proof.
  split; [reflexivity|].
  destruct (init_bad_input (H := no_decoders) false [])
    as (_ & Hother & Hdict & _).
  split; [apply Hdict; reflexivity|apply Hother].
Defined.

(** ** Acyclicity on particular tables *)

(** C1: on the table built from an empty one by [add_edge('A','B')] and
    [add_edge('B','C')], [is_acyclic] returns true (and leaves the table
    as it was). *)
Theorem is_acyclic_chain :
  (add_edge "A" "B" ;; add_edge "B" "C" ;; is_acyclic) RoutingTableProto_new
  = (Ok true, chain_abc).
Proof. vm_compute. reflexivity. Qed.

(** The answer on [A→B→C] does not depend on the order in which the
    map enumerates its three keys. *)
Lemma is_acyclic_chain_any_order :
  Forall (λ keys, is_acyclic_from keys chain_abc = (Ok true, chain_abc))
    (permutations ["A"; "B"; "C"]).
Proof.
  let l := eval vm_compute in (permutations ["A"; "B"; "C"]) in
  change (permutations ["A"; "B"; "C"]) with l.
  repeat (apply List.Forall_cons; [vm_compute; reflexivity|]).
  apply List.Forall_nil.
Qed.

Lemma self_loop_has_cycle : has_cycle self_loop.
Proof.
  exists "A". apply tc_once. split.
  - vm_compute. apply list_elem_of_here.
  - vm_compute. eauto.
Qed.

(** C2 at the table [A→A]: the pod reaches itself along its one edge, yet
    [is_acyclic] returns true.  The pod is compared with itself, and a
    position is never strictly greater than itself. *)
Theorem is_acyclic_self_loop :
  has_cycle self_loop ∧ is_acyclic self_loop = (Ok true, self_loop).
Proof. split; [apply self_loop_has_cycle|]. vm_compute. reflexivity. Qed.

(** The two-pod cycle [A→B→A] is reported. *)
Lemma is_acyclic_two_cycle : is_acyclic two_cycle = (Ok false, two_cycle).
Proof. vm_compute. reflexivity. Qed.

(** ** The depth-first search on closed tables *)

Lemma visited_getitem_flag k visited :
  (visited_getitem k visited).1 = true ↔ seen visited k.
Proof.
  unfold visited_getitem, seen.
  destruct (visited !! k) as [[|]|]; simpl; split; congruence.
Qed.

Lemma visited_getitem_seen k visited x :
  seen (visited_getitem k visited).2 x ↔ seen visited x.
Proof.
  unfold visited_getitem, seen.
  destruct (visited !! k) as [b|] eqn:Hk; simpl; [done|].
  destruct (decide (k = x)) as [->|Hne].
  - rewrite lookup_insert_eq, Hk. split; congruence.
  - by rewrite lookup_insert_ne.
Qed.

Lemma seen_insert_true pod visited x :
  seen (<[pod:=true]> visited) x ↔ x = pod ∨ seen visited x.
Proof.
  unfold seen. destruct (decide (pod = x)) as [->|Hne].
  - rewrite lookup_insert_eq. split; [by left|done].
  - rewrite lookup_insert_ne by done. split; [by right|].
    intros [->|?]; done.
Qed.

Lemma elem_of_key_set pb x :
  x ∈ key_set pb ↔ is_Some (MessageMap.lookup x (pods pb)).
Proof.
  unfold key_set. by rewrite elem_of_list_to_set, lookup_Some_keys.
Qed.

Lemma elem_of_unvisited pb visited x :
  x ∈ unvisited pb visited ↔
  ¬ seen visited x ∧ is_Some (MessageMap.lookup x (pods pb)).
Proof. unfold unvisited. by rewrite elem_of_filter, elem_of_key_set. Qed.

Lemma unvisited_mono pb visited visited' :
  (∀ x, seen visited x → seen visited' x) →
  unvisited pb visited' ⊆ unvisited pb visited.
Proof.
  intros Hmono x. rewrite !elem_of_unvisited. intros [Hx ?].
  split; [|done]. intros Hs. by apply Hx, Hmono.
Qed.

Lemma unvisited_enter pb visited pod :
  is_Some (MessageMap.lookup pod (pods pb)) → ¬ seen visited pod →
  (size (unvisited pb (<[pod:=true]> visited))
   < size (unvisited pb visited))%nat.
Proof.
  intros Hkey Hnew. apply subset_size. split.
  - apply unvisited_mono. intros x ?. apply seen_insert_true. by right.
  - intros Hsub. specialize (Hsub pod).
    rewrite !elem_of_unvisited in Hsub.
    destruct Hsub as [Hpod _]; [done|].
    apply Hpod, seen_insert_true. by left.
Qed.

Lemma size_list_to_set_le (l : list string) :
  (size (list_to_set (C := gset string) l) ≤ length l)%nat.
Proof.
  induction l as [|k l IH].
  - rewrite list_to_set_nil, size_empty. done.
  - rewrite list_to_set_cons, size_union_alt, size_singleton.
    assert (size (list_to_set (C := gset string) l ∖ {[k]})
            ≤ size (list_to_set (C := gset string) l))%nat as Hle
      by (apply subseteq_size; intros x; rewrite elem_of_difference; tauto).
    simpl. lia.
Qed.

Lemma size_key_set pb : (size (key_set pb) ≤ length (pods pb))%nat.
Proof.
  unfold key_set, MessageMap.keys.
  etrans; [apply size_list_to_set_le|]. by rewrite length_fmap.
Qed.

Lemma size_unvisited pb visited :
  (size (unvisited pb visited) ≤ recursion_budget pb)%nat.
Proof.
  unfold recursion_budget.
  pose proof (size_key_set pb) as Hk.
  assert (size (unvisited pb visited) ≤ size (key_set pb))%nat as Hle.
  { apply subseteq_size. intros x.
    rewrite elem_of_unvisited, elem_of_key_set. tauto. }
  lia.
Qed.

Lemma before_eq_app m n stack new :
  before_eq m n stack → before_eq m n (stack ++ new).
Proof.
  intros (i & j & Hi & Hj & Hij). exists i, j.
  split_and!; [by apply lookup_app_l_Some..|done].
Qed.

Lemma dfs_inv_equiv pb visited visited' stack :
  (∀ x, seen visited' x ↔ seen visited x) →
  dfs_inv pb visited stack → dfs_inv pb visited' stack.
Proof.
  intros Heq [Hnd Hkeys Hst Hed]. split; [done| | |done].
  - intros x Hx. by apply Hkeys, Heq.
  - intros x Hx. by apply Heq, Hst.
Qed.

Lemma dfs_extends_refl vs : dfs_extends vs vs.
Proof.
  split_and!; [done|done| |by left].
  exists []. by rewrite app_nil_r.
Qed.

Lemma dfs_extends_trans vs1 vs2 vs3 :
  dfs_extends vs1 vs2 → dfs_extends vs2 vs3 → dfs_extends vs1 vs3.
Proof.
  intros (Hm1 & Hg1 & [new1 Hn1] & Hf1) (Hm2 & Hg2 & [new2 Hn2] & Hf2).
  split_and!.
  - intros x Hx. by apply Hm2, Hm1.
  - intros x Hx Hnot. destruct (Hg2 x Hx Hnot) as [Hx2 Hnot2].
    by apply Hg1.
  - exists (new1 ++ new2). by rewrite Hn2, Hn1, app_assoc.
  - intros x Hx. destruct (Hf2 x Hx) as [Hx2|Hx2].
    + by apply Hf1.
    + right. intros Hs. by apply Hx2, Hm1.
Qed.

Lemma dfs_extends_marks visited visited' stack :
  (∀ x, seen visited' x ↔ seen visited x) →
  dfs_extends (visited, stack) (visited', stack).
Proof.
  intros Heq. split_and!; simpl.
  - intros x. apply Heq.
  - intros x Hx Hnot. split; [by apply Heq|done].
  - exists []. by rewrite app_nil_r.
  - intros x Hx. by left.
Qed.

Section dfs.
Context (pb : RoutingTableProto) (Hclosed : closed pb).

Lemma edge_of_out_edge a b : b ∈ edges_of a pb → edge pb a b.
Proof. intros Hb. split; [done|]. by eapply Hclosed. Qed.

(** One call of [_topological_sort_pod] on a pod that has not been
    entered: with a budget that covers the pods not yet entered, the call
    returns, leaves the table as it is, and puts [pod] on the stack. *)
Lemma topological_sort_pod_spec fuel :
  ∀ pod visited stack,
    is_Some (MessageMap.lookup pod (pods pb)) →
    ¬ seen visited pod →
    (size (unvisited pb visited) ≤ fuel)%nat →
    dfs_inv pb visited stack →
    (∀ x, seen visited x → x ∉ stack → tc (edge pb) x pod) →
    ∃ vs', _topological_sort_pod fuel pod (visited, stack) pb = (Ok vs', pb) ∧
      dfs_inv pb vs'.1 vs'.2 ∧
      dfs_extends (visited, stack) vs' ∧
      pod ∈ vs'.2.
Proof.
  induction fuel as [|fuel IH]; intros pod visited stack Hkey Hnew Hfuel Hinv Hgray.
  { exfalso. assert (pod ∈ unvisited pb visited) as Hin
      by by apply elem_of_unvisited.
    assert (size (unvisited pb visited) = 0%nat) as Hzero by lia.
    apply size_empty_inv in Hzero. by apply Hzero in Hin. }
  (* the loop over the out-edges, from any state reached inside it *)
  assert (∀ es v1 s1,
    (∀ e, e ∈ es → e ∈ edges_of pod pb) →
    dfs_inv pb v1 s1 → seen v1 pod → pod ∉ s1 →
    (size (unvisited pb v1) ≤ fuel)%nat →
    (∀ x, seen v1 x → x ∉ s1 → x = pod ∨ tc (edge pb) x pod) →
    ∃ vs2,
      for_each es
        (λ '(visited, stack) out_pod,
           let '(seen, visited) := visited_getitem out_pod visited in
           if seen : bool then ret (visited, stack)
           else _topological_sort_pod fuel out_pod (visited, stack))
        (v1, s1) pb = (Ok vs2, pb) ∧
      dfs_inv pb vs2.1 vs2.2 ∧
      dfs_extends (v1, s1) vs2 ∧
      ∀ e, e ∈ es → seen vs2.1 e) as Hloop.
  { induction es as [|e es IHes]; intros v1 s1 Hes Hinv1 Hpod Hnot Hsize Hgray1.
    { exists (v1, s1). split_and!; [done|done|apply dfs_extends_refl|].
      intros e He. by apply elem_of_nil in He. }
    cbn [for_each].
    pose proof (visited_getitem_flag e v1) as Hflag.
    pose proof (visited_getitem_seen e v1) as Hsame.
    destruct (visited_getitem e v1) as [flag v1'] eqn:Hget. simpl in Hflag, Hsame.
    assert (dfs_inv pb v1' s1) as Hinv1' by by eapply dfs_inv_equiv.
    assert (dfs_extends (v1, s1) (v1', s1)) as Hext0
      by by apply dfs_extends_marks.
    assert (∃ vs', (if flag then ret (v1', s1)
                    else _topological_sort_pod fuel e (v1', s1)) pb
                   = (Ok vs', pb) ∧
              dfs_inv pb vs'.1 vs'.2 ∧ dfs_extends (v1', s1) vs' ∧
              seen vs'.1 e) as (vs' & Hrun & Hinv' & Hext' & Hseen_e).
    { destruct flag.
      - exists (v1', s1). split_and!; [done|done|apply dfs_extends_refl|].
        simpl. apply Hsame, Hflag. done.
      - assert (¬ seen v1 e) as Hnew_e by (rewrite <-Hflag; done).
        destruct (IH e v1' s1) as (vs' & Hrun & Hinv' & Hext' & Hin').
        + eapply Hclosed, Hes, list_elem_of_here.
        + by rewrite Hsame.
        + etrans; [|exact Hsize]. apply subseteq_size, unvisited_mono.
          intros x. by rewrite Hsame.
        + done.
        + intros x Hx Hxs. apply Hsame in Hx.
          assert (edge pb pod e) as Hedge
            by (apply edge_of_out_edge, Hes, list_elem_of_here).
          destruct (Hgray1 x Hx Hxs) as [->|Hreach];
            [by apply tc_once|by eapply tc_r].
        + exists vs'. split_and!; [done..|].
          by apply (inv_stack_seen _ _ _ Hinv'). }
    assert (dfs_extends (v1, s1) vs') as Hext1
      by by eapply dfs_extends_trans.
    destruct Hext1 as (Hm1 & Hg1 & Hn1 & Hf1).
    destruct (IHes vs'.1 vs'.2) as (vs2 & Hrun2 & Hinv2 & Hext2 & Hseen2).
    - intros e' He'. apply Hes. by right.
    - done.
    - by apply Hm1.
    - intros Hin. destruct (Hf1 _ Hin) as [?|Hno]; [done|]. by apply Hno.
    - etrans; [|exact Hsize]. by apply subseteq_size, unvisited_mono.
    - intros x Hx Hxs. destruct (Hg1 x Hx Hxs) as [Hx1 Hxs1].
      by apply Hgray1.
    - exists vs2. split_and!; [|done| |].
      + erewrite bind_Ok; [|rewrite <-Hrun; reflexivity].
        destruct vs' as [v' s']. exact Hrun2.
      + eapply dfs_extends_trans; [|exact Hext2].
        destruct vs'; by split_and!.
      + intros e' [->|He']%elem_of_cons; [|by apply Hseen2].
        destruct Hext2 as (Hm2 & _). by apply Hm2. }
  destruct Hkey as [tp Htp].
  assert (pod ∉ stack) as Hpod_stack.
  { intros Hin. by apply Hnew, (inv_stack_seen _ _ _ Hinv). }
  destruct (Hloop (edges_of pod pb) (<[pod:=true]> visited) stack)
    as ([v2 s2] & Hrun & Hinv2 & Hext2 & Hseen2).
  - done.
  - destruct Hinv as [Hnd Hkeys Hst Hed]. split; [done| |..|done].
    + intros x [->|Hx]%seen_insert_true; eauto.
    + intros x Hx. apply seen_insert_true. right. by apply Hst.
  - apply seen_insert_true. by left.
  - done.
  - pose proof (unvisited_enter pb visited pod) as Hlt.
    assert (size (unvisited pb (<[pod:=true]> visited))
            < size (unvisited pb visited))%nat by eauto. lia.
  - intros x [->|Hx]%seen_insert_true Hxs; [by left|right]. by apply Hgray.
  - simpl in *. destruct Hext2 as (Hm2 & Hg2 & [new Hnew2] & Hf2).
    simpl in *.
    assert (pod ∉ s2) as Hpod2.
    { intros Hin. destruct (Hf2 _ Hin) as [?|Hno]; [done|].
      apply Hno, seen_insert_true. by left. }
    exists (v2, s2 ++ [pod]). split_and!.
    + erewrite bind_Ok by (eapply _get_out_edges_present; exact Htp).
      unfold edges_of in Hrun. rewrite Htp in Hrun. simpl in Hrun.
      erewrite bind_Ok by exact Hrun. done.
    + destruct Hinv2 as [Hnd2 Hkeys2 Hst2 Hed2]. split; simpl.
      * apply NoDup_app. split_and!; [done| |apply NoDup_singleton].
        intros x Hx ->%list_elem_of_singleton. done.
      * done.
      * intros x [Hx| ->%list_elem_of_singleton]%elem_of_app;
          [by apply Hst2|].
        apply Hm2, seen_insert_true. by left.
      * intros n m [Hn| ->%list_elem_of_singleton]%elem_of_app Hm.
        { destruct (Hed2 n m Hn Hm) as [Hbefore|?]; [|by right].
          left. by apply before_eq_app. }
        destruct (decide (m = pod)) as [->|Hne].
        { left. exists (length s2), (length s2).
          rewrite list_lookup_middle by done. done. }
        destruct (decide (m ∈ s2)) as [Hin|Hnin].
        { left. apply list_elem_of_lookup in Hin as [i Hi].
          exists i, (length s2).
          rewrite lookup_app_l_Some with (x := m) by done.
          rewrite list_lookup_middle by done.
          split_and!; [done..|]. apply lookup_lt_Some in Hi. lia. }
        right. split; [done|].
        destruct (Hg2 m (Hseen2 m Hm) Hnin) as [Hm1 Hms].
        apply seen_insert_true in Hm1 as [?|Hm1]; [done|].
        by apply Hgray.
    + split_and!; simpl.
      * intros x Hx. apply Hm2, seen_insert_true. by right.
      * intros x Hx Hnot. rewrite elem_of_app, list_elem_of_singleton in Hnot.
        destruct (Hg2 x Hx) as [Hx1 Hxs]; [tauto|].
        apply seen_insert_true in Hx1 as [->|Hx1]; [tauto|done].
      * exists (new ++ [pod]). by rewrite Hnew2, app_assoc.
      * intros x [Hx| ->%list_elem_of_singleton]%elem_of_app; [|by right].
        destruct (Hf2 x Hx) as [?|Hno]; [by left|right].
        intros Hs. apply Hno, seen_insert_true. by right.
    + simpl. apply elem_of_app. right. apply list_elem_of_here.
Qed.

End dfs.

(** ** Positions in the ordering *)

Lemma position_fold_other (l : list string) (f : nat → nat)
    (d : gmap string nat) x :
  x ∉ l →
  foldl (λ d '(position, pod), <[pod:=position]> d) d
    (imap (λ i y, (f i, y)) l) !! x = d !! x.
Proof.
  revert f d. induction l as [|y l IH]; intros f d Hx; [done|].
  rewrite imap_cons. simpl. apply not_elem_of_cons in Hx as [Hne Hx].
  rewrite (IH (f ∘ S)) by done. by rewrite lookup_insert_ne.
Qed.

Lemma position_fold_lookup (l : list string) (f : nat → nat)
    (d : gmap string nat) i x :
  NoDup l → l !! i = Some x →
  foldl (λ d '(position, pod), <[pod:=position]> d) d
    (imap (λ i y, (f i, y)) l) !! x = Some (f i).
Proof.
  revert f d i. induction l as [|y l IH]; intros f d i Hnd Hi; [done|].
  rewrite imap_cons. simpl. apply NoDup_cons in Hnd as [Hy Hnd].
  destruct i as [|i]; simpl in Hi.
  - injection Hi as ->.
    rewrite (position_fold_other l (f ∘ S)) by done.
    by rewrite lookup_insert_eq.
  - by rewrite (IH (f ∘ S) _ i).
Qed.

Lemma position_dict_lookup (l : list string) i x :
  NoDup l → l !! i = Some x → position_dict l !! x = Some i.
Proof. apply (position_fold_lookup l id). Qed.

Lemma position_dict_inv (l : list string) i x :
  NoDup l → x ∈ l → position_dict l !! x = Some i → l !! i = Some x.
Proof.
  intros Hnd [j Hj]%list_elem_of_lookup Hi.
  rewrite (position_dict_lookup l j x) in Hi by done. by injection Hi as <-.
Qed.

Lemma before_eq_reverse m n stack :
  before_eq m n stack → before_eq n m (reverse stack).
Proof.
  intros (i & j & Hi & Hj & Hij).
  pose proof (lookup_lt_Some _ _ _ Hi) as Hli.
  pose proof (lookup_lt_Some _ _ _ Hj) as Hlj.
  exists (length stack - S j)%nat, (length stack - S i)%nat. split_and!.
  - apply reverse_lookup_Some. split; [|lia].
    by replace (length stack - S (length stack - S j))%nat with j by lia.
  - apply reverse_lookup_Some. split; [|lia].
    by replace (length stack - S (length stack - S i))%nat with i by lia.
  - lia.
Qed.

Section ordering.
Context (pb : RoutingTableProto) (Hclosed : closed pb).

(** The loop over the keys, for any way [visit] of running the search
    from one pod that meets the specification of
    [_topological_sort_pod]. *)
Context (visit : string → gmap string bool * list string →
                 B (gmap string bool * list string)).
Context (Hvisit : ∀ pod visited stack,
  is_Some (MessageMap.lookup pod (pods pb)) →
  ¬ seen visited pod →
  dfs_inv pb visited stack →
  (∀ x, seen visited x → x ∉ stack → tc (edge pb) x pod) →
  ∃ vs', visit pod (visited, stack) pb = (Ok vs', pb) ∧
    dfs_inv pb vs'.1 vs'.2 ∧
    dfs_extends (visited, stack) vs' ∧
    pod ∈ vs'.2).

Lemma for_each_pod_spec keys :
  ∀ visited stack,
    (∀ k, k ∈ keys → is_Some (MessageMap.lookup k (pods pb))) →
    dfs_inv pb visited stack →
    (∀ x, seen visited x → x ∈ stack) →
    ∃ vs',
      for_each_pod (length (pods pb)) keys
        (λ '(visited, stack) pod,
           let '(seen, visited) := visited_getitem pod visited in
           if seen : bool then ret (visited, stack)
           else visit pod (visited, stack))
        (visited, stack) pb = (Ok vs', pb) ∧
      dfs_inv pb vs'.1 vs'.2 ∧
      (∀ x, seen vs'.1 x → x ∈ vs'.2) ∧
      (∀ x, x ∈ stack → x ∈ vs'.2) ∧
      (∀ k, k ∈ keys → k ∈ vs'.2).
Proof.
  induction keys as [|k keys IH]; intros visited stack Hkeys Hinv Hgray.
  { exists (visited, stack). cbn [for_each_pod].
    erewrite bind_Ok by reflexivity. rewrite decide_True by done.
    split_and!; [done..|]. intros k Hk. by apply elem_of_nil in Hk. }
  cbn [for_each_pod].
  erewrite bind_Ok by reflexivity. rewrite decide_True by done.
  pose proof (visited_getitem_flag k visited) as Hflag.
  pose proof (visited_getitem_seen k visited) as Hsame.
  destruct (visited_getitem k visited) as [flag v1] eqn:Hget.
  simpl in Hflag, Hsame.
  assert (dfs_inv pb v1 stack) as Hinv1 by by eapply dfs_inv_equiv.
  assert (∃ vs1, (if flag then ret (v1, stack)
                  else visit k (v1, stack)) pb = (Ok vs1, pb) ∧
            dfs_inv pb vs1.1 vs1.2 ∧ (∀ x, seen vs1.1 x → x ∈ vs1.2) ∧
            (∀ x, x ∈ stack → x ∈ vs1.2) ∧ k ∈ vs1.2)
    as (vs1 & Hrun & Hinv' & Hgray' & Hkeep & Hk).
  { destruct flag.
    - exists (v1, stack). split_and!; [done|done| |done|].
      + intros x Hx. by apply Hgray, Hsame.
      + apply Hgray, Hflag. done.
    - destruct (Hvisit k v1 stack) as (vs1 & Hrun & Hinv' & Hext & Hin).
      + apply Hkeys, list_elem_of_here.
      + rewrite Hsame, <-Hflag. done.
      + done.
      + intros x Hx Hxs. exfalso. by apply Hxs, Hgray, Hsame.
      + destruct Hext as (Hm & Hg & [new Hnew] & Hf). simpl in *.
        exists vs1. split_and!; [done|done| |..|done].
        * intros x Hx. destruct (decide (x ∈ vs1.2)) as [|Hnot]; [done|].
          destruct (Hg x Hx Hnot) as [Hx1 Hxs].
          exfalso. by apply Hxs, Hgray, Hsame.
        * intros x Hx. rewrite Hnew. apply elem_of_app. by left. }
  destruct (IH vs1.1 vs1.2)
    as (vs2 & Hrun2 & Hinv2 & Hgray2 & Hkeep2 & Hkeys2).
  - intros k' Hk'. apply Hkeys. by right.
  - done.
  - done.
  - exists vs2. split_and!; [|done|done|..].
    + erewrite bind_Ok; [|rewrite <-Hrun; reflexivity].
      destruct vs1. exact Hrun2.
    + intros x Hx. by apply Hkeep2, Hkeep.
    + intros k' [->|Hk']%elem_of_cons; [|by apply Hkeys2].
      by apply Hkeep2.
Qed.

(** The ordering the loop leaves, for any enumeration [keys] of the
    pods: it lists every pod exactly once, and an out-edge leads to a pod
    at or after its source, or else to a different pod from which the
    source can be reached. *)
Lemma sorted_from_spec keys :
  (∀ k, k ∈ keys ↔ is_Some (MessageMap.lookup k (pods pb))) →
  ∃ ts,
    (vs <- for_each_pod (length (pods pb)) keys
             (λ '(visited, stack) pod,
                let '(seen, visited) := visited_getitem pod visited in
                if seen : bool then ret (visited, stack)
                else visit pod (visited, stack))
             (∅, []) ;;
     ret (reverse (vs.2))) pb = (Ok ts, pb) ∧
    NoDup ts ∧
    (∀ x, x ∈ ts ↔ is_Some (MessageMap.lookup x (pods pb))) ∧
    (∀ n m, n ∈ ts → m ∈ edges_of n pb →
       before_eq n m ts ∨ (m ≠ n ∧ tc (edge pb) m n)).
Proof.
  intros Hkeys.
  destruct (for_each_pod_spec keys ∅ [])
    as ([v s] & Hrun & [Hnd Hks Hst Hed] & Hgray & _ & Hall).
  - intros k. apply Hkeys.
  - split; [apply NoDup_nil_2|done| |].
    + intros x Hx. by apply elem_of_nil in Hx.
    + intros n m Hn. by apply elem_of_nil in Hn.
  - intros x Hx. unfold seen in Hx. by rewrite lookup_empty in Hx.
  - simpl in *. exists (reverse s). split_and!.
    + erewrite bind_Ok by exact Hrun. done.
    + by rewrite reverse_Permutation.
    + intros x. rewrite elem_of_reverse. split.
      * intros Hx. by apply Hks, Hst.
      * intros Hx. by apply Hall, Hkeys.
    + intros n m Hn Hm. rewrite elem_of_reverse in Hn.
      destruct (Hed n m Hn Hm) as [Hbefore|?]; [|by right].
      left. by apply before_eq_reverse.
Qed.

End ordering.

(** The ordering [_topological_sort] computes on a closed table. *)
Lemma topological_sort_from_spec pb (Hclosed : closed pb) keys :
  (∀ k, k ∈ keys ↔ is_Some (MessageMap.lookup k (pods pb))) →
  ∃ ts, _topological_sort_from keys pb = (Ok ts, pb) ∧
    NoDup ts ∧
    (∀ x, x ∈ ts ↔ is_Some (MessageMap.lookup x (pods pb))) ∧
    (∀ n m, n ∈ ts → m ∈ edges_of n pb →
       before_eq n m ts ∨ (m ≠ n ∧ tc (edge pb) m n)).
Proof.
  intros Hkeys.
  destruct (sorted_from_spec pb
              (_topological_sort_pod (recursion_budget pb))) with (keys := keys)
    as (ts & Hrun & Hrest); [|done|].
  - intros pod visited stack Hpod Hnew Hinv Hgray.
    apply (topological_sort_pod_spec pb Hclosed); try done.
    apply size_unvisited.
  - exists ts. split; [|done]. unfold _topological_sort_from.
    erewrite bind_Ok by reflexivity. exact Hrun.
Qed.

(** ** The position check *)

Lemma scan_out_edges_spec (pb : RoutingTableProto) (d : gmap string nat)
    first p1 edges :
  d !! first = Some p1 →
  (∀ e, e ∈ edges → is_Some (d !! e)) →
  ∃ r, scan_out_edges d first edges pb = (Ok r, pb) ∧
    ((r = Some false ∧
      ∃ e p2, e ∈ edges ∧ d !! e = Some p2 ∧ (p2 < p1)%nat) ∨
     (r = None ∧
      ∀ e p2, e ∈ edges → d !! e = Some p2 → ¬ (p2 < p1)%nat)).
Proof.
  intros Hfirst. induction edges as [|second edges IH]; intros Hall.
  { exists None. split; [done|]. right. split; [done|].
    intros e p2 He. by apply elem_of_nil in He. }
  destruct (Hall second) as [p2 Hp2]; [apply list_elem_of_here|].
  cbn [scan_out_edges]. unfold dict_getitem. rewrite Hfirst, Hp2.
  erewrite bind_Ok by reflexivity. erewrite bind_Ok by reflexivity.
  destruct (decide (p2 < p1)%nat) as [Hlt|Hge].
  - exists (Some false). split; [done|]. left. split; [done|].
    exists second, p2. split_and!; [apply list_elem_of_here|done..].
  - destruct IH as (r & Hrun & Hr).
    { intros e He. apply Hall. by right. }
    exists r. split; [done|].
    destruct Hr as [[-> (e & q & He & Hq & Hlt)]|[-> Hnone]].
    + left. split; [done|]. exists e, q. split_and!; [by right|done..].
    + right. split; [done|].
      intros e q [->|He]%elem_of_cons Hq; [|by eapply Hnone].
      rewrite Hp2 in Hq. by injection Hq as <-.
Qed.

Lemma scan_pods_spec (pb : RoutingTableProto) (d : gmap string nat) order :
  (∀ n, n ∈ order → is_Some (MessageMap.lookup n (pods pb)) ∧ is_Some (d !! n)) →
  (∀ n e, n ∈ order → e ∈ edges_of n pb → is_Some (d !! e)) →
  ∃ r, scan_pods d order pb = (Ok r, pb) ∧
    ((r = Some false ∧
      ∃ n e p1 p2, n ∈ order ∧ e ∈ edges_of n pb ∧
        d !! n = Some p1 ∧ d !! e = Some p2 ∧ (p2 < p1)%nat) ∨
     (r = None ∧
      ∀ n e p1 p2, n ∈ order → e ∈ edges_of n pb →
        d !! n = Some p1 → d !! e = Some p2 → ¬ (p2 < p1)%nat)).
Proof.
  induction order as [|first order IH]; intros Hpods Hedges.
  { exists None. split; [done|]. right. split; [done|].
    intros n e p1 p2 Hn. by apply elem_of_nil in Hn. }
  destruct (Hpods first) as [[tp Htp] [p1 Hp1]]; [apply list_elem_of_here|].
  cbn [scan_pods].
  erewrite bind_Ok by (eapply _get_out_edges_present; exact Htp).
  assert (edges_of first pb = out_edges tp) as Hout
    by (unfold edges_of; by rewrite Htp).
  destruct (scan_out_edges_spec pb d first p1 (out_edges tp) Hp1)
    as (r & Hrun & Hr).
  { intros e He. eapply (Hedges first); [apply list_elem_of_here|].
    by rewrite Hout. }
  erewrite bind_Ok by exact Hrun.
  destruct Hr as [[-> (e & p2 & He & Hp2 & Hlt)]|[-> Hnone]].
  - exists (Some false). split; [done|]. left. split; [done|].
    exists first, e, p1, p2.
    split_and!; [apply list_elem_of_here|by rewrite Hout|done..].
  - destruct IH as (r & Hrun' & Hr).
    { intros n Hn. apply Hpods. by right. }
    { intros n e Hn. apply Hedges. by right. }
    exists r. split; [done|].
    destruct Hr as [[-> (n & e & q1 & q2 & Hn & He & Hq1 & Hq2 & Hlt)]
                   |[-> Hnone']].
    + left. split; [done|]. exists n, e, q1, q2.
      split_and!; [by right|done..].
    + right. split; [done|].
      intros n e q1 q2 [->|Hn]%elem_of_cons He Hq1 Hq2;
        [|by eapply Hnone'].
      rewrite Hp1 in Hq1. injection Hq1 as <-.
      rewrite Hout in He. by eapply Hnone.
Qed.

Lemma edge_source_is_pod pb a b :
  edge pb a b → is_Some (MessageMap.lookup a (pods pb)).
Proof.
  intros [Hb _]. unfold edges_of in Hb.
  destruct (MessageMap.lookup a (pods pb)); [eauto|].
  by apply elem_of_nil in Hb.
Qed.

(** ** What [is_acyclic] decides *)

(** On a closed table, and for any order in which the map enumerates its
    keys, [is_acyclic] returns, leaves the table as it is, and answers
    false exactly when some cycle passes through two different pods.
    A pod whose only cycle is an edge to itself is not reported. *)
Lemma position_check_decides (pb : RoutingTableProto) (ts : list string) :
  closed pb →
  NoDup ts →
  (∀ x, x ∈ ts ↔ is_Some (MessageMap.lookup x (pods pb))) →
  (∀ n m, n ∈ ts → m ∈ edges_of n pb →
     before_eq n m ts ∨ (m ≠ n ∧ tc (edge pb) m n)) →
  ∃ b, (r <- scan_pods (position_dict ts) ts ;; ret (default true r)) pb
         = (Ok b, pb) ∧
    (b = false ↔ has_proper_cycle pb).
Proof.
  intros Hclosed Hnd Hts Hord.
  assert (∀ x, x ∈ ts → ∃ i, ts !! i = Some x ∧
            position_dict ts !! x = Some i) as Hpos.
  { intros x [i Hi]%list_elem_of_lookup. exists i. split; [done|].
    by apply position_dict_lookup. }
  destruct (scan_pods_spec pb (position_dict ts) ts) as (r & Hscan & Hr).
  { intros n Hn. split; [by apply Hts|].
    destruct (Hpos n Hn) as (i & _ & Hi). eauto. }
  { intros n e Hn He.
    destruct (Hpos e) as (i & _ & Hi); [|eauto].
    by eapply Hts, Hclosed. }
  erewrite bind_Ok by exact Hscan.
  destruct Hr as [[-> (n & e & p1 & p2 & Hn & He & Hp1 & Hp2 & Hlt)]
                 |[-> Hnone]].
  - exists false. split; [done|]. split; [intros _|done].
    destruct (Hord n e Hn He) as [(i & j & Hi & Hj & Hij)|[Hne Hback]].
    + rewrite (position_dict_lookup ts i n) in Hp1 by done.
      rewrite (position_dict_lookup ts j e) in Hp2 by done.
      injection Hp1 as <-. injection Hp2 as <-. lia.
    + exists n, e. split_and!; [done| |done].
      apply tc_once. split; [done|]. by eapply Hclosed.
  - exists true. split; [done|]. split; [done|].
    intros (a & b & Hab & Hto & Hfrom). exfalso.
    assert (∀ x y, tc (edge pb) x y →
              ∃ i j, ts !! i = Some x ∧ ts !! j = Some y ∧ (i ≤ j)%nat)
      as Hmono.
    { assert (∀ x y, edge pb x y →
                ∃ i j, ts !! i = Some x ∧ ts !! j = Some y ∧ (i ≤ j)%nat)
        as Hstep.
      { intros x y Hxy.
        destruct (Hpos x) as (i & Hi & Hdi);
          [by eapply Hts, edge_source_is_pod|].
        destruct (Hpos y) as (j & Hj & Hdj); [by apply Hts, Hxy|].
        exists i, j. split_and!; [done..|].
        assert (¬ (j < i)%nat); [|lia].
        eapply (Hnone x y i j); [|apply Hxy|done..].
        by eapply Hts, edge_source_is_pod. }
      intros x y Hxy. induction Hxy as [x y Hxy|x y z Hxy _ IH].
      - by apply Hstep.
      - destruct (Hstep x y Hxy) as (i & j & Hi & Hj & Hij).
        destruct IH as (j' & k & Hj' & Hk & Hjk).
        assert (j = j') as <- by by eapply NoDup_lookup.
        exists i, k. split_and!; [done..|lia]. }
    destruct (Hmono a b Hto) as (i & j & Hi & Hj & Hij).
    destruct (Hmono b a Hfrom) as (j' & i' & Hj' & Hi' & Hji).
    assert (i = i') as <- by by eapply NoDup_lookup.
    assert (j = j') as <- by by eapply NoDup_lookup.
    assert (i = j) as <- by lia.
    rewrite Hi in Hj. by injection Hj.
Qed.

Lemma is_acyclic_from_decides (pb : RoutingTableProto) (keys : list string) :
  closed pb →
  (∀ k, k ∈ keys ↔ is_Some (MessageMap.lookup k (pods pb))) →
  ∃ b, is_acyclic_from keys pb = (Ok b, pb) ∧
    (b = false ↔ has_proper_cycle pb).
Proof.
  intros Hclosed Hkeys.
  destruct (topological_sort_from_spec pb Hclosed keys Hkeys)
    as (ts & Hsort & Hnd & Hts & Hord).
  destruct (position_check_decides pb ts Hclosed Hnd Hts Hord)
    as (b & Hrun & Hb).
  exists b. split; [|done]. unfold is_acyclic_from.
  erewrite bind_Ok by exact Hsort. exact Hrun.
Qed.

Lemma is_acyclic_decides (pb : RoutingTableProto) :
  closed pb →
  ∃ b, is_acyclic pb = (Ok b, pb) ∧ (b = false ↔ has_proper_cycle pb).
Proof.
  intros Hclosed.
  destruct (is_acyclic_from_decides pb (MessageMap.keys (pods pb)) Hclosed)
    as (b & Hrun & Hb).
  { intros k. by rewrite lookup_Some_keys. }
  exists b. split; [|done]. unfold is_acyclic.
  by erewrite bind_Ok by reflexivity.
Qed.

(** ** The search under a recursion limit *)

Lemma bind_Ok_inv {S A A'} (m : ST S A) (k : A → ST S A') s r s' :
  bind m k s = (Ok r, s') →
  ∃ a s1, m s = (Ok a, s1) ∧ k a s1 = (Ok r, s').
Proof.
  unfold bind. destruct (m s) as [[a|e|] s1]; intros Hk; [eauto|done..].
Qed.

Lemma for_each_Ok_transfer {S A X} (body1 body2 : A → X → ST S A)
    xs acc s r s' :
  (∀ a x s r s', body1 a x s = (Ok r, s') → body2 a x s = (Ok r, s')) →
  for_each xs body1 acc s = (Ok r, s') →
  for_each xs body2 acc s = (Ok r, s').
Proof.
  intros Hbody. revert acc s.
  induction xs as [|x xs IH]; intros acc s; simpl; [done|].
  intros (a & s1 & Hx & Hrest)%bind_Ok_inv.
  erewrite bind_Ok by (apply Hbody; exact Hx). by apply IH.
Qed.

(** Where the search with a budget returns, the search under a limit of
    the same size returns the same. *)
Lemma topological_sort_pod_at_Ok fuel :
  ∀ pod vs pb r pb',
    _topological_sort_pod fuel pod vs pb = (Ok r, pb') →
    _topological_sort_pod_at fuel pod vs pb = (Ok r, pb').
Proof.
  induction fuel as [|fuel IH]; intros pod vs pb r pb'; simpl; [done|].
  intros (edges & pb1 & Hedges & Hrest)%bind_Ok_inv.
  erewrite bind_Ok by exact Hedges.
  apply bind_Ok_inv in Hrest as (vs' & pb2 & Hloop & Hret).
  erewrite bind_Ok; [exact Hret|].
  eapply for_each_Ok_transfer; [|exact Hloop].
  intros [visited stack] x s0 r0 s0'.
  destruct (visited_getitem x visited) as [[|] visited']; [done|apply IH].
Qed.

Lemma size_unvisited_pods pb visited :
  (size (unvisited pb visited) ≤ length (pods pb))%nat.
Proof.
  pose proof (size_key_set pb) as Hk.
  assert (size (unvisited pb visited) ≤ size (key_set pb))%nat as Hle.
  { apply subseteq_size. intros x.
    rewrite elem_of_unvisited, elem_of_key_set. tauto. }
  lia.
Qed.

Lemma topological_sort_from_at_spec pb (Hclosed : closed pb) depth keys :
  (length (pods pb) ≤ depth)%nat →
  (∀ k, k ∈ keys ↔ is_Some (MessageMap.lookup k (pods pb))) →
  ∃ ts, _topological_sort_from_at depth keys pb = (Ok ts, pb) ∧
    NoDup ts ∧
    (∀ x, x ∈ ts ↔ is_Some (MessageMap.lookup x (pods pb))) ∧
    (∀ n m, n ∈ ts → m ∈ edges_of n pb →
       before_eq n m ts ∨ (m ≠ n ∧ tc (edge pb) m n)).
Proof.
  intros Hdepth Hkeys.
  destruct (sorted_from_spec pb (_topological_sort_pod_at depth))
    with (keys := keys) as (ts & Hrun & Hrest); [|done|].
  - intros pod visited stack Hpod Hnew Hinv Hgray.
    destruct (topological_sort_pod_spec pb Hclosed depth pod visited stack)
      as (vs' & Hrun & Hspec); try done.
    { etrans; [apply size_unvisited_pods|done]. }
    exists vs'. split; [|done]. by apply topological_sort_pod_at_Ok.
  - exists ts. split; [|done]. unfold _topological_sort_from_at.
    erewrite bind_Ok by reflexivity. exact Hrun.
Qed.

(** With room for as many nested calls as the table has pods,
    [is_acyclic] returns on a closed table, leaves it as it is, and
    answers [False] exactly when a cycle passes through two different
    pods. *)
Lemma is_acyclic_from_at_decides pb depth keys :
  closed pb →
  (length (pods pb) ≤ depth)%nat →
  (∀ k, k ∈ keys ↔ is_Some (MessageMap.lookup k (pods pb))) →
  ∃ b, is_acyclic_from_at depth keys pb = (Ok b, pb) ∧
    (b = false ↔ has_proper_cycle pb).
Proof.
  intros Hclosed Hdepth Hkeys.
  destruct (topological_sort_from_at_spec pb Hclosed depth keys Hdepth Hkeys)
    as (ts & Hsort & Hnd & Hts & Hord).
  destruct (position_check_decides pb ts Hclosed Hnd Hts Hord)
    as (b & Hrun & Hb).
  exists b. split; [|done]. unfold is_acyclic_from_at.
  erewrite bind_Ok by exact Hsort. exact Hrun.
Qed.

Lemma is_acyclic_at_decides pb depth :
  closed pb →
  (length (pods pb) ≤ depth)%nat →
  ∃ b, is_acyclic_at depth pb = (Ok b, pb) ∧
    (b = false ↔ has_proper_cycle pb).
Proof.
  intros Hclosed Hdepth.
  destruct (is_acyclic_from_at_decides pb depth (MessageMap.keys (pods pb))
              Hclosed Hdepth) as (b & Hrun & Hb).
  { intros k. by rewrite lookup_Some_keys. }
  exists b. split; [|done]. unfold is_acyclic_at.
  by erewrite bind_Ok by reflexivity.
Qed.

Lemma decided_same (b b' : bool) (P : Prop) :
  (b = false ↔ P) → (b' = false ↔ P) → b = b'.
Proof.
  intros H1 H2. destruct b, b'; try done.
  - assert P as HP by by apply H2. by apply H1 in HP.
  - assert P as HP by by apply H1. by apply H2 in HP.
Qed.

(** Below the limit the two embeddings of [is_acyclic] agree. *)
Lemma is_acyclic_at_agrees pb depth :
  closed pb →
  (length (pods pb) ≤ depth)%nat →
  is_acyclic_at depth pb = is_acyclic pb.
Proof.
  intros Hclosed Hdepth.
  destruct (is_acyclic_at_decides pb depth Hclosed Hdepth) as (b & -> & Hb).
  destruct (is_acyclic_decides pb Hclosed) as (b' & -> & Hb').
  by rewrite (decided_same b b' _ Hb Hb').
Qed.


(** Tables wired with [add_edge] alone are closed, so the answer of
    [is_acyclic] on them is the one described above. *)
Lemma add_edges_closed calls pb :
  add_edges calls RoutingTableProto_new = (Ok tt, pb) → closed pb.
Proof.
  intros Hrun a b Hb.
  destruct (add_edges_lookup calls a) as (pb1 & Hrun1 & _ & Ha).
  destruct (add_edges_lookup calls b) as (pb2 & Hrun2 & _ & Hlb).
  rewrite Hrun in Hrun1, Hrun2.
  injection Hrun1 as <-. injection Hrun2 as <-.
  unfold edges_of in Hb. rewrite Ha in Hb. rewrite Hlb.
  destruct (decide (mentions a calls)) as [_|_]; simpl in Hb;
    [|by apply elem_of_nil in Hb].
  rewrite decide_True; [eauto|]. right.
  unfold targets_from in Hb.
  apply list_elem_of_fmap in Hb as ([f t] & -> & Hin).
  apply list_elem_of_filter in Hin as [_ Hin].
  apply list_elem_of_fmap. by exists (f, t).
Qed.

Lemma is_acyclic_after_add_edges calls :
  ∃ pb b, (add_edges calls ;; is_acyclic) RoutingTableProto_new = (Ok b, pb) ∧
    (b = false ↔ has_proper_cycle pb).
Proof.
  destruct (add_edges_run calls RoutingTableProto_new) as (pb & Hrun & _).
  destruct (is_acyclic_decides pb) as (b & Hacyclic & Hb).
  { by eapply add_edges_closed. }
  exists pb, b. split; [|done].
  by erewrite bind_Ok by exact Hrun.
Qed.

Lemma has_proper_cycle_has_cycle pb : has_proper_cycle pb → has_cycle pb.
Proof. intros (a & b & _ & Hab & Hba). exists a. by etrans. Qed.

(** ** Wiring a table that already has pods *)

Lemma extend_nothing tp : extend tp [] 0 = tp.
Proof. destruct tp. unfold extend. simpl. by rewrite app_nil_r, Z.add_0_r. Qed.

Lemma slot_after_edges_default calls n o :
  default TargetPodProto_new (slot_after_edges calls n o) =
  extend (default TargetPodProto_new o) (targets_from n calls)
    (Z.of_nat (length (calls_to n calls))).
Proof.
  destruct o as [tp|]; [by rewrite slot_after_edges_Some|].
  rewrite slot_after_edges_None. case_decide; [done|]. simpl.
  rewrite calls_to_not_mentioned, targets_from_not_mentioned by done.
  by rewrite extend_nothing.
Qed.

Lemma slot_after_edges_is_Some calls n o :
  is_Some (slot_after_edges calls n o) ↔ is_Some o ∨ mentions n calls.
Proof.
  destruct o as [tp|].
  - rewrite slot_after_edges_Some. split; [by left; eauto|eauto].
  - rewrite slot_after_edges_None. case_decide.
    + split; [by right|eauto].
    + split; [by intros [? ?]|]. intros [[? ?]|?]; done.
Qed.

(** ** Registering a pod *)

(** X3: a name that has been an endpoint of an [add_edge] call is taken:
    [add_pod] on the source or on the target of the edge raises the
    duplicate-node [ValueError] and changes nothing, so the address of a
    pod has to be registered before its first edge. *)
Theorem add_pod_after_add_edge (pb : RoutingTableProto)
    (from_pod to_pod host : string) (port : Z) :
  let pb' := (add_edge from_pod to_pod pb).2 in
  add_pod from_pod host port pb' =
    (Raise (ValueError (duplicate_message from_pod)), pb') ∧
  add_pod to_pod host port pb' =
    (Raise (ValueError (duplicate_message to_pod)), pb').
Proof.
  simpl. destruct (add_edge_creates_endpoints from_pod to_pod pb)
    as [Hfrom Hto].
  split; apply add_pod_taken; by apply contains_true.
Qed.

(** ** Checking closedness by evaluation *)

Lemma lookup_Some_elem_of {V} k (v : V) m :
  MessageMap.lookup k m = Some v → (k, v) ∈ m.
Proof.
  induction m as [|[k' v'] m IH]; simpl; [done|].
  destruct (decide (k = k')) as [->|Hne].
  - intros [= ->]. apply list_elem_of_here.
  - intros Hk. right. by apply IH.
Qed.

Lemma closedb_closed pb : closedb pb = true → closed pb.
Proof.
  unfold closedb. rewrite forallb_forall. intros Hall a b Hb.
  unfold edges_of in Hb.
  destruct (MessageMap.lookup a (pods pb)) as [tp|] eqn:Ha;
    [|by apply elem_of_nil in Hb].
  apply lookup_Some_elem_of, list_elem_of_In in Ha.
  specialize (Hall _ Ha). simpl in *. rewrite forallb_forall in Hall.
  apply contains_true, Hall. by apply list_elem_of_In.
Qed.

Lemma no_self_loopb_no_self_loop pb :
  no_self_loopb pb = true → no_self_loop pb.
Proof.
  unfold no_self_loopb. rewrite forallb_forall. intros Hall a Ha.
  unfold edges_of in Ha.
  destruct (MessageMap.lookup a (pods pb)) as [tp|] eqn:Hl;
    [|by apply elem_of_nil in Ha].
  apply lookup_Some_elem_of, list_elem_of_In in Hl.
  specialize (Hall _ Hl). simpl in Hall.
  apply negb_true_iff, bool_decide_eq_false in Hall. done.
Qed.

(** ** Bodies that only read *)

Lemma lookup_default_entries n names :
  MessageMap.lookup n (default_entries names) =
  if decide (n ∈ names) then Some TargetPodProto_new else None.
Proof.
  induction names as [|k names IH]; simpl; [done|].
  destruct (decide (n = k)) as [->|Hne].
  - rewrite decide_True; [done|apply list_elem_of_here].
  - rewrite IH. destruct (decide (n ∈ names)).
    + rewrite decide_True; [done|by right].
    + rewrite decide_False; [done|]. by intros [?|?]%elem_of_cons.
Qed.

Lemma default_entries_app l1 l2 :
  default_entries (l1 ++ l2) = default_entries l1 ++ default_entries l2.
Proof. apply fmap_app. Qed.

Lemma keys_default_entries names :
  MessageMap.keys (default_entries names) = names.
Proof.
  unfold MessageMap.keys, default_entries.
  rewrite <-list_fmap_compose. induction names; simpl; by f_equal.
Qed.

Section read_only.

Lemma read_only_ret {A} (a : A) : read_only (ret a).
Proof.
  intros pb. split; [done|]. exists []. simpl.
  rewrite app_nil_r. split_and!; [done|apply NoDup_nil_2|].
  intros n Hn. by apply elem_of_nil in Hn.
Qed.

Lemma read_only_same {A} (m : B A) :
  (∀ pb, (m pb).2 = pb) → read_only m.
Proof.
  intros Hm pb. rewrite Hm. apply (read_only_ret tt pb).
Qed.

Lemma read_only_bind {A A'} (m : B A) (f : A → B A') :
  read_only m → (∀ a, read_only (f a)) → read_only (bind m f).
Proof.
  intros Hm Hf pb. unfold bind.
  destruct (Hm pb) as (Hact & added & Hpods & Hnd & Hnew).
  destruct (m pb) as [[a| |] pb1]; simpl in *; [|by eauto..].
  destruct (Hf a pb1) as (Hact' & added' & Hpods' & Hnd' & Hnew').
  split; [congruence|]. exists (added ++ added').
  rewrite Hpods', Hpods, default_entries_app, app_assoc.
  split_and!; [done| |].
  - apply NoDup_app. split_and!; [done| |done].
    intros n Hn Hn'. specialize (Hnew' n Hn').
    rewrite Hpods, lookup_app, (Hnew n Hn), lookup_default_entries in Hnew'.
    by rewrite decide_True in Hnew'.
  - intros n [Hn|Hn]%elem_of_app; [by apply Hnew|].
    specialize (Hnew' n Hn). rewrite Hpods, lookup_app in Hnew'.
    by destruct (MessageMap.lookup n (pods pb)).
Qed.

Lemma read_only_for_each {A X} (xs : list X) (body : A → X → B A) acc :
  (∀ a x, read_only (body a x)) → read_only (for_each xs body acc).
Proof.
  intros Hbody. revert acc.
  induction xs as [|x xs IH]; intros acc; simpl.
  - apply read_only_ret.
  - apply read_only_bind; [apply Hbody|]. intros a. apply IH.
Qed.

Lemma read_only_get : read_only get.
Proof. by apply read_only_same. Qed.

Lemma read_only_raise {A} e : read_only (raise (A := A) e).
Proof. by apply read_only_same. Qed.

Lemma read_only_stuck {A} : read_only (stuck (A := A)).
Proof. by apply read_only_same. Qed.

Lemma read_only_dict_getitem d k : read_only (dict_getitem d k).
Proof. unfold dict_getitem. destruct (d !! k); by apply read_only_same. Qed.

Lemma read_only_pods_getitem name : read_only (pods_getitem name).
Proof.
  intros pb. rewrite pods_getitem_run. simpl. split; [done|].
  unfold MessageMap.get_or_create.
  destruct (MessageMap.lookup name (pods pb)) eqn:Hname.
  - exists []. simpl. rewrite app_nil_r.
    split_and!; [done|apply NoDup_nil_2|].
    intros n Hn. by apply elem_of_nil in Hn.
  - exists [name]. split_and!; [done|apply NoDup_singleton|].
    by intros n ->%list_elem_of_singleton.
Qed.

Lemma read_only_slot_read r : read_only (slot_read r).
Proof.
  apply read_only_same. intros pb. unfold slot_read. st_unfold.
  by destruct (MessageMap.lookup (slot_key r) (pods pb)).
Qed.

Lemma read_only_get_target_pod pod : read_only (_get_target_pod pod).
Proof.
  apply read_only_bind; [apply read_only_pods_getitem|].
  intros. apply read_only_ret.
Qed.

Lemma read_only_get_out_edges pod : read_only (_get_out_edges pod).
Proof.
  apply read_only_bind; [apply read_only_get_target_pod|]. intros tp.
  apply read_only_bind; [apply read_only_slot_read|].
  intros. apply read_only_ret.
Qed.

Lemma read_only_active_target_pod : read_only active_target_pod.
Proof.
  apply read_only_bind; [by apply read_only_same|]. intros name.
  apply read_only_bind; [apply read_only_pods_getitem|].
  intros. apply read_only_ret.
Qed.

Lemma read_only_topological_sort_pod fuel pod vs :
  read_only (_topological_sort_pod fuel pod vs).
Proof.
  revert pod vs. induction fuel as [|fuel IH]; intros pod vs; simpl.
  - apply read_only_stuck.
  - apply read_only_bind; [apply read_only_get_out_edges|]. intros edges.
    apply read_only_bind; [|intros; apply read_only_ret].
    apply read_only_for_each. intros [visited stack] x.
    destruct (visited_getitem x visited) as [[|] visited'];
      [apply read_only_ret|apply IH].
Qed.

Lemma read_only_for_each_pod {A} size keys (body : A → string → B A) acc :
  (∀ a x, read_only (body a x)) →
  read_only (for_each_pod size keys body acc).
Proof.
  intros Hbody. revert acc.
  induction keys as [|x keys IH]; intros acc; simpl.
  - apply read_only_bind; [apply read_only_get|]. intros pb.
    case_decide; [apply read_only_ret|apply read_only_raise].
  - apply read_only_bind; [apply read_only_get|]. intros pb.
    case_decide; [|apply read_only_raise].
    apply read_only_bind; [apply Hbody|]. intros a. apply IH.
Qed.

Lemma read_only_topological_sort_from keys :
  read_only (_topological_sort_from keys).
Proof.
  apply read_only_bind; [apply read_only_get|]. intros pb.
  apply read_only_bind; [|intros; apply read_only_ret].
  apply read_only_for_each_pod. intros [visited stack] x.
  destruct (visited_getitem x visited) as [[|] visited'];
    [apply read_only_ret|apply read_only_topological_sort_pod].
Qed.

Lemma read_only_scan_out_edges d first edges :
  read_only (scan_out_edges d first edges).
Proof.
  induction edges as [|second edges IH]; simpl; [apply read_only_ret|].
  apply read_only_bind; [apply read_only_dict_getitem|]. intros p1.
  apply read_only_bind; [apply read_only_dict_getitem|]. intros p2.
  case_decide; [apply read_only_ret|apply IH].
Qed.

Lemma read_only_scan_pods d order : read_only (scan_pods d order).
Proof.
  induction order as [|first order IH]; simpl; [apply read_only_ret|].
  apply read_only_bind; [apply read_only_get_out_edges|]. intros edges.
  apply read_only_bind; [apply read_only_scan_out_edges|]. intros [b|].
  - apply read_only_ret.
  - apply IH.
Qed.

Lemma read_only_is_acyclic_from keys : read_only (is_acyclic_from keys).
Proof.
  apply read_only_bind; [apply read_only_topological_sort_from|]. intros ts.
  apply read_only_bind; [apply read_only_scan_pods|].
  intros. apply read_only_ret.
Qed.

Lemma read_only_descriptor {A} (m : B A) pb n :
  read_only m → descriptor n (m pb).2 = descriptor n pb.
Proof.
  intros Hm. destruct (Hm pb) as (_ & added & Hpods & _ & Hnew).
  unfold descriptor. rewrite Hpods, lookup_app.
  destruct (MessageMap.lookup n (pods pb)) eqn:Hn; [done|].
  rewrite lookup_default_entries. by case_decide.
Qed.

Lemma read_only_lookup {A} (m : B A) pb n tp :
  read_only m →
  MessageMap.lookup n (pods pb) = Some tp →
  MessageMap.lookup n (pods (m pb).2) = Some tp.
Proof.
  intros Hm Hn. destruct (Hm pb) as (_ & added & Hpods & _ & _).
  by rewrite Hpods, lookup_app, Hn.
Qed.

End read_only.

(** X4: the bodies that only read.  [active_target_pod], the out-edge
    lookup, [_topological_sort] and [is_acyclic] never change the active
    pod or an existing entry of [pods], whatever they return or raise;
    the only trace they can leave is default entries, appended for names
    that had none.  Hence what is read for any pod is the same before and
    after, and an entry that was there is still there, unchanged. *)
Theorem readers_are_read_only :
  (read_only active_target_pod ∧
   (∀ pod, read_only (_get_out_edges pod)) ∧
   read_only _topological_sort ∧
   read_only is_acyclic) ∧
  (∀ A (m : B A), read_only m → ∀ pb n,
     descriptor n (m pb).2 = descriptor n pb ∧
     (∀ tp, MessageMap.lookup n (pods pb) = Some tp →
            MessageMap.lookup n (pods (m pb).2) = Some tp)).
Proof.
  split; [split_and!|].
  - apply read_only_active_target_pod.
  - apply read_only_get_out_edges.
  - apply read_only_bind; [apply read_only_get|]. intros.
    apply read_only_topological_sort_from.
  - apply read_only_bind; [apply read_only_get|]. intros.
    apply read_only_is_acyclic_from.
  - intros A m Hm pb n. split; [by apply read_only_descriptor|].
    intros tp. by apply read_only_lookup.
Qed.

Lemma readers_are_read_only_witness :
  descriptor "B" (is_acyclic two_cycle).2 = descriptor "B" two_cycle ∧
  pods (active_target_pod dangling_active).2 =
    pods dangling_active ++ default_entries ["A"].
Proof.
  destruct readers_are_read_only as [(_ & _ & _ & Hacyclic) Huse].
  split; [|reflexivity].
  apply (Huse _ is_acyclic Hacyclic two_cycle "B").
Defined.

(** ** Invariants of a table under construction *)

Lemma keys_alter {V} (f : V → V) k (m : list (string * V)) :
  MessageMap.keys (MessageMap.alter f k m) = MessageMap.keys m.
Proof.
  unfold MessageMap.keys.
  induction m as [|[k' v] m IH]; simpl; [done|].
  destruct (decide (k = k')); simpl; [done|]. f_equal. exact IH.
Qed.

Lemma NoDup_keys_get_or_create {V} (dflt : V) k (m : list (string * V)) :
  NoDup (MessageMap.keys m) →
  NoDup (MessageMap.keys (MessageMap.get_or_create dflt k m)).
Proof.
  intros Hnd. unfold MessageMap.get_or_create.
  destruct (MessageMap.lookup k m) eqn:Hk; [done|].
  unfold MessageMap.keys in *. rewrite fmap_app. simpl.
  apply NoDup_app. split_and!; [done| |apply NoDup_singleton].
  intros x Hx ->%list_elem_of_singleton.
  apply lookup_Some_keys in Hx as [v Hv]. congruence.
Qed.

Lemma mentions_single n f t : mentions n [(f, t)] ↔ n = f ∨ n = t.
Proof.
  unfold mentions. simpl. by rewrite !list_elem_of_singleton.
Qed.

Lemma add_edge_well_formed f t pb :
  well_formed pb → well_formed (add_edge f t pb).2.
Proof.
  intros [Hclosed Hnd]. rewrite add_edge_run. cbn [snd]. split.
  - intros a b Hb. unfold edges_of in *. simpl in *.
    rewrite lookup_pods_after_edge in *.
    change (slot_after_edge f t ?n ?o)
      with (slot_after_edges [(f, t)] n o) in *.
    rewrite slot_after_edges_default in Hb. simpl in Hb.
    apply slot_after_edges_is_Some. rewrite mentions_single.
    apply elem_of_app in Hb as [Hb|Hb].
    + left. by eapply Hclosed.
    + right. right. rewrite targets_from_cons in Hb.
      case_decide; simpl in Hb;
        [by apply list_elem_of_singleton in Hb|by apply elem_of_nil in Hb].
  - cbn [pods with_pods]. unfold pods_after_edge. rewrite !keys_alter.
    apply NoDup_keys_get_or_create. rewrite keys_alter.
    by apply NoDup_keys_get_or_create.
Qed.

Lemma add_pod_well_formed name h p pb :
  well_formed pb → well_formed (add_pod name h p pb).2.
Proof.
  intros [Hclosed Hnd].
  destruct (MessageMap.contains name (pods pb)) eqn:Hin.
  { by rewrite add_pod_taken. }
  rewrite add_pod_fresh by done. apply contains_false in Hin.
  cbn [snd]. split.
  - intros a b Hb. unfold edges_of in Hb. simpl in *.
    rewrite lookup_app in *. simpl in Hb.
    destruct (MessageMap.lookup a (pods pb)) as [tp|] eqn:Ha.
    + assert (is_Some (MessageMap.lookup b (pods pb))) as [tb Htb].
      { eapply Hclosed. unfold edges_of. by rewrite Ha. }
      rewrite Htb. eauto.
    + case_decide; simpl in Hb; by apply elem_of_nil in Hb.
  - cbn [pods with_pods]. unfold MessageMap.keys in *.
    rewrite fmap_app. simpl.
    apply NoDup_app. split_and!; [done| |apply NoDup_singleton].
    intros x Hx ->%list_elem_of_singleton.
    apply lookup_Some_keys in Hx as [v Hv]. congruence.
Qed.

Lemma read_only_well_formed {A} (m : B A) pb :
  read_only m → well_formed pb → well_formed (m pb).2.
Proof.
  intros Hm [Hclosed Hnd].
  pose proof (Hm pb) as (_ & added & Hpods & Hnd' & Hnew). split.
  - intros a b Hb. unfold edges_of in Hb.
    fold (descriptor a (m pb).2) in Hb.
    rewrite read_only_descriptor in Hb by done.
    destruct (Hclosed a b Hb) as [tb Htb].
    exists tb. by apply read_only_lookup.
  - rewrite Hpods. unfold MessageMap.keys in *. rewrite fmap_app.
    fold (MessageMap.keys (default_entries added)).
    rewrite keys_default_entries.
    apply NoDup_app. split_and!; [done| |done].
    intros x Hx Hx'. apply lookup_Some_keys in Hx as [v Hv].
    rewrite (Hnew x Hx') in Hv. done.
Qed.

Lemma new_well_formed : well_formed RoutingTableProto_new.
Proof.
  split; [|apply NoDup_nil_2].
  intros a b Hb. by apply elem_of_nil in Hb.
Qed.

Lemma build_well_formed script pb :
  well_formed pb → well_formed (build script pb).
Proof.
  revert pb. induction script as [|op script IH]; intros pb Hwf; [done|].
  simpl. apply IH. destruct op; simpl.
  - by apply add_pod_well_formed.
  - by apply add_edge_well_formed.
Qed.

(** X5: the operations keep a table well formed.  If every out-edge of
    the table leads to one of its pods and no name has two entries, the
    same holds after [add_edge], after [add_pod] (whether it succeeds or
    raises), after setting the active pod, and after any body that only
    reads, such as [active_target_pod] or [is_acyclic]. *)
Theorem wiring_keeps_well_formed (pb : RoutingTableProto) :
  well_formed pb →
  (∀ from_pod to_pod, well_formed (add_edge from_pod to_pod pb).2) ∧
  (∀ name host port, well_formed (add_pod name host port pb).2) ∧
  (∀ name, well_formed (set_active_pod name pb).2) ∧
  well_formed (active_target_pod pb).2 ∧
  well_formed (is_acyclic pb).2.
Proof.
  intros Hwf. split_and!.
  - intros. by apply add_edge_well_formed.
  - intros. by apply add_pod_well_formed.
  - done.
  - by apply read_only_well_formed; [apply read_only_active_target_pod|].
  - apply read_only_well_formed; [|done].
    apply read_only_bind; [apply read_only_get|]. intros.
    apply read_only_is_acyclic_from.
Qed.

Lemma wiring_keeps_well_formed_witness :
  well_formed RoutingTableProto_new ∧
  well_formed (add_edge "A" "B" RoutingTableProto_new).2.
Proof.
  split; [apply new_well_formed|].
  apply (wiring_keeps_well_formed RoutingTableProto_new new_well_formed).
Defined.

(** ** What [is_acyclic] decides, for callers *)

(** X6: on a table whose out-edges all lead to pods of the table, and
    with room for as many nested calls of [_topological_sort_pod] as the
    table has pods, [is_acyclic] returns and leaves the table as it was;
    it answers [False] exactly when some cycle passes through two
    different pods, and the answer is the same for any order in which the
    map enumerates its keys. *)
Theorem is_acyclic_reports_proper_cycles (pb : RoutingTableProto)
    (depth : nat) (keys : list string) :
  closed pb →
  (length (pods pb) ≤ depth)%nat →
  (∀ k, k ∈ keys ↔ is_Some (MessageMap.lookup k (pods pb))) →
  ∃ b, is_acyclic_at depth pb = (Ok b, pb) ∧
    is_acyclic_from_at depth keys pb = (Ok b, pb) ∧
    (b = false ↔ has_proper_cycle pb).
Proof.
  intros Hclosed Hdepth Hkeys.
  destruct (is_acyclic_from_at_decides pb depth keys Hclosed Hdepth Hkeys)
    as (b & Hrun & Hb).
  destruct (is_acyclic_at_decides pb depth Hclosed Hdepth)
    as (b' & Hrun' & Hb').
  rewrite (decided_same b b' _ Hb Hb') in *.
  exists b'. by split_and!.
Qed.

Lemma is_acyclic_reports_proper_cycles_witness :
  closed two_cycle ∧
  (length (pods two_cycle) ≤ 2)%nat ∧
  ∃ b, is_acyclic_at 2 two_cycle = (Ok b, two_cycle) ∧
    is_acyclic_from_at 2 ["B"; "A"] two_cycle = (Ok b, two_cycle) ∧
    (b = false ↔ has_proper_cycle two_cycle).
Proof.
  assert (closed two_cycle) as Hclosed by (apply closedb_closed; reflexivity).
  assert (length (pods two_cycle) ≤ 2)%nat as Hdepth by (vm_compute; lia).
  split_and!; [exact Hclosed|exact Hdepth|].
  apply (is_acyclic_reports_proper_cycles two_cycle 2 ["B"; "A"]
           Hclosed Hdepth).
  intros k. rewrite lookup_Some_keys.
  change (MessageMap.keys (pods two_cycle)) with ["A"; "B"].
  rewrite !elem_of_cons, !elem_of_nil. tauto.
Defined.

Lemma has_cycle_proper pb :
  no_self_loop pb → has_cycle pb → has_proper_cycle pb.
Proof.
  intros Hno [a Hcycle].
  inversion Hcycle as [x y Hedge|x y z Hedge Hrest]; subst.
  - destruct Hedge as [Hself _]. by apply Hno in Hself.
  - exists a, y. split_and!; [|by apply tc_once|done].
    intros <-. destruct Hedge as [Hself _]. by apply Hno in Hself.
Qed.

(** X7: on a table whose out-edges all lead to pods of the table and in
    which no pod lists itself, and with room for as many nested calls of
    [_topological_sort_pod] as the table has pods, [is_acyclic] is exact:
    it returns [True] when the table has no directed cycle and [False]
    when it has one. *)
Theorem is_acyclic_exact_without_self_loops (pb : RoutingTableProto)
    (depth : nat) :
  closed pb → no_self_loop pb →
  (length (pods pb) ≤ depth)%nat →
  ∃ b, is_acyclic_at depth pb = (Ok b, pb) ∧ (b = true ↔ ¬ has_cycle pb).
Proof.
  intros Hclosed Hno Hdepth.
  destruct (is_acyclic_at_decides pb depth Hclosed Hdepth) as (b & Hrun & Hb).
  exists b. split; [done|]. split.
  - intros -> Hcycle. apply has_cycle_proper in Hcycle; [|done].
    by apply Hb in Hcycle.
  - intros Hnone. destruct b; [done|]. exfalso. apply Hnone.
    by apply has_proper_cycle_has_cycle, Hb.
Qed.

Lemma is_acyclic_exact_without_self_loops_witness :
  closed chain_abc ∧ no_self_loop chain_abc ∧
  (length (pods chain_abc) ≤ 3)%nat ∧
  ∃ b, is_acyclic_at 3 chain_abc = (Ok b, chain_abc) ∧
    (b = true ↔ ¬ has_cycle chain_abc).
Proof.
  assert (closed chain_abc) as Hclosed
    by (apply closedb_closed; reflexivity).
  assert (no_self_loop chain_abc) as Hno
    by (apply no_self_loopb_no_self_loop; reflexivity).
  assert (length (pods chain_abc) ≤ 3)%nat as Hdepth by (vm_compute; lia).
  split_and!; [done..|].
  exact (is_acyclic_exact_without_self_loops chain_abc 3 Hclosed Hno Hdepth).
Defined.

(** X8: on a table whose out-edges all lead to pods of the table, and
    with room for as many nested calls of [_topological_sort_pod] as the
    table has pods, [_topological_sort] returns, leaves the table as it
    was, and lists every pod exactly once (a permutation of the keys when
    no name has two entries).  If no cycle passes through two different
    pods the list is a topological order: the source of every edge stands
    at or before its target. *)
Theorem topological_sort_orders (pb : RoutingTableProto) (depth : nat) :
  closed pb →
  (length (pods pb) ≤ depth)%nat →
  ∃ ts, _topological_sort_at depth pb = (Ok ts, pb) ∧
    NoDup ts ∧
    (∀ x, x ∈ ts ↔ is_Some (MessageMap.lookup x (pods pb))) ∧
    (NoDup (MessageMap.keys (pods pb)) → ts ≡ₚ MessageMap.keys (pods pb)) ∧
    (¬ has_proper_cycle pb → ∀ n m, edge pb n m → before_eq n m ts).
Proof.
  intros Hclosed Hdepth.
  destruct (topological_sort_from_at_spec pb Hclosed depth
              (MessageMap.keys (pods pb)) Hdepth)
    as (ts & Hrun & Hnd & Hts & Hord).
  { intros k. by rewrite lookup_Some_keys. }
  exists ts. split_and!; [|done|done|..].
  - unfold _topological_sort_at. by erewrite bind_Ok by reflexivity.
  - intros Hkeys. apply list.NoDup_Permutation; [exact Hnd|exact Hkeys|].
    intros x. by rewrite Hts, lookup_Some_keys.
  - intros Hnone n m Hedge.
    destruct (Hord n m) as [?|[Hne Hback]]; [| |done|].
    + by eapply Hts, edge_source_is_pod.
    + apply Hedge.
    + exfalso. apply Hnone. exists n, m.
      split_and!; [done|by apply tc_once|done].
Qed.

Lemma topological_sort_orders_witness :
  closed diamond ∧
  (length (pods diamond) ≤ 4)%nat ∧
  ∃ ts, _topological_sort_at 4 diamond = (Ok ts, diamond) ∧
    (¬ has_proper_cycle diamond → ∀ n m, edge diamond n m → before_eq n m ts).
Proof.
  assert (closed diamond) as Hclosed by (apply closedb_closed; reflexivity).
  assert (length (pods diamond) ≤ 4)%nat as Hdepth by (vm_compute; lia).
  split_and!; [exact Hclosed|exact Hdepth|].
  destruct (topological_sort_orders diamond 4 Hclosed Hdepth)
    as (ts & Hrun & _ & _ & _ & Hord).
  exists ts. split; [exact Hrun|exact Hord].
Defined.

(** ** Next hops and construction, on the heap *)

Section heap_properties.
Context `{Externals}.

(** X10: when the active pod has an entry, [get_next_targets] returns one
    table per out-edge of the active pod, in the order of the out-edge
    list and with repetitions kept.  The tables wrap pairwise different
    messages, all allocated by the call; the message behind the [i]-th
    table is the source's with [active_pod] set to the [i]-th out-edge;
    and no message that existed before the call, the source's included,
    is changed. *)
Theorem get_next_targets_snapshots (h : heap) (self : t)
    (pb : RoutingTableProto) (tp : TargetPodProto) :
  h !! _pb_body self = Some pb →
  MessageMap.lookup (jina_pb2.active_pod pb) (pods pb) = Some tp →
  ∃ targets h', get_next_targets self h = (Ok targets, h') ∧
    length targets = length (out_edges tp) ∧
    (∀ l, (l < length h)%nat → h' !! l = h !! l) ∧
    NoDup (_pb_body <$> targets) ∧
    (∀ i e, out_edges tp !! i = Some e →
       ∃ g, targets !! i = Some g ∧
         (length h ≤ _pb_body g)%nat ∧
         h' !! _pb_body g = Some (with_active pb e)).
Proof.
  intros Hself Hactive.
  rewrite (get_next_targets_run self h pb tp) by done.
  eexists _, _. split; [reflexivity|]. split_and!.
  - by rewrite length_fmap, length_seq.
  - intros l Hl. by rewrite lookup_app_l.
  - rewrite <-list_fmap_compose.
    rewrite (list_fmap_ext _ id (seq (length h) (length (out_edges tp))))
      by done.
    rewrite list_fmap_id. apply NoDup_seq.
  - intros i e Hi. pose proof (lookup_lt_Some _ _ _ Hi) as Hlt.
    exists (RoutingTable (length h + i)). split_and!.
    + by rewrite list_lookup_fmap, lookup_seq_lt.
    + simpl. lia.
    + simpl. rewrite lookup_app_r by lia.
      replace (length h + i - length h)%nat with i by lia.
      by rewrite list_lookup_fmap, Hi.
Qed.

(** X11: when the active name has no entry, [get_next_targets] raises
    nothing and returns the empty list, but the lookup of the out-edges
    leaves a default entry for the active name in the source table. *)
Theorem get_next_targets_missing_active (h : heap) (self : t)
    (pb : RoutingTableProto) :
  h !! _pb_body self = Some pb →
  MessageMap.contains (jina_pb2.active_pod pb) (pods pb) = false →
  get_next_targets self h =
    (Ok [],
     <[_pb_body self :=
         with_pods pb
           (pods pb ++ [(jina_pb2.active_pod pb, TargetPodProto_new)])]> h).
Proof.
  intros Hself Hmissing%contains_false. unfold get_next_targets.
  erewrite bind_Ok; cycle 1.
  { eapply call_run; [done|].
    erewrite bind_Ok by reflexivity. apply _get_out_edges_run. }
  unfold edges_of, MessageMap.get_or_create. rewrite Hmissing. done.
Qed.

(** X12: a table built from another with [copy=False] wraps the very
    message of its source: after any method body has run on either of
    the two, both read the message that body left.  The same holds for a
    raw message: with [copy=False] the table wraps it, with [copy=True]
    it wraps a fresh message with the same content. *)
Theorem init_reference_aliases (h : heap) (T : t) (pb : RoutingTableProto) :
  h !! _pb_body T = Some pb →
  (∃ S h0, __init__ (GraphTable T) false h = (Ok S, h0) ∧
     _pb_body S = _pb_body T ∧
     h0 !! _pb_body T = Some pb ∧
     ∀ A (m : B A),
       (call (_pb_body S) m h0).2 !! _pb_body T = Some (m pb).2 ∧
       (call (_pb_body T) m h0).2 !! _pb_body S = Some (m pb).2) ∧
  __init__ (GraphProto (_pb_body T)) false h =
    (Ok (RoutingTable (_pb_body T)), h ++ [RoutingTableProto_new]) ∧
  __init__ (GraphProto (_pb_body T)) true h =
    (Ok (RoutingTable (length h)), h ++ [pb]).
Proof.
  intros HT. pose proof (lookup_lt_Some _ _ _ HT) as Hlt.
  split_and!; [|done|by apply (init_copy (RoutingTable (_pb_body T)))].
  exists T, (h ++ [RoutingTableProto_new]).
  assert ((h ++ [RoutingTableProto_new]) !! _pb_body T = Some pb) as HT'
    by by apply lookup_app_l_Some.
  split_and!; [apply init_share|done|done|].
  intros A m. destruct (m pb) as [r pb'] eqn:Hm.
  erewrite call_run by done. simpl.
  rewrite list_lookup_insert_eq; [done|].
  rewrite length_app. simpl. lia.
Qed.

Lemma copy_from_appends (src : loc) (h : heap) :
  ∃ x, (CopyFrom (length h) src (h ++ [RoutingTableProto_new])).2 = h ++ [x].
Proof.
  unfold CopyFrom, bind, call at 1.
  destruct ((h ++ [RoutingTableProto_new]) !! src) as [pb|] eqn:Hsrc;
    [|by eexists].
  unfold get. rewrite list_insert_id by done.
  unfold call. rewrite lookup_app_r, Nat.sub_diag by lia. simpl.
  rewrite insert_last. by eexists.
Qed.

Lemma fill_appends (decoded : exn + RoutingTableProto) (h : heap) :
  ∃ x, (fill (length h) decoded (h ++ [RoutingTableProto_new])).2 = h ++ [x].
Proof.
  destruct decoded as [e|pb]; simpl; [by eexists|].
  unfold call. rewrite lookup_app_r, Nat.sub_diag by lia. simpl.
  rewrite insert_last. by eexists.
Qed.

Lemma bind_keeps_state {S A A'} (m : ST S A) (k : A → ST S A') s :
  (∀ a s', (k a s').2 = s') → (bind m k s).2 = (m s).2.
Proof.
  intros Hk. unfold bind. destruct (m s) as [[a|e|] s']; simpl; [|done..].
  apply Hk.
Qed.

Lemma try_except_keeps_state {S A} (m : ST S A) (k : exn → ST S A) s :
  (∀ e s', (k e s').2 = s') → (try_except m k s).2 = (m s).2.
Proof.
  intros Hk. unfold try_except.
  destruct (m s) as [[a|e|] s']; simpl; [done| |done]. apply Hk.
Qed.

(** X13: what the constructor does to the heap.  Whatever the argument
    and whether it returns or raises, it allocates exactly one message
    and changes none that existed.  When the decoder accepts a dict,
    string or bytes argument, the table wraps the new message, which
    holds what the decoder produced, for either value of [copy]. *)
Theorem init_allocates_one (graph : graph_arg) (copy : bool) (h : heap) :
  (∃ x, (__init__ graph copy h).2 = h ++ [x]) ∧
  (∀ l, (l < length h)%nat → (__init__ graph copy h).2 !! l = h !! l) ∧
  (∀ d pb, ParseDict d = inr pb →
     __init__ (GraphDict d) copy h =
       (Ok (RoutingTable (length h)), h ++ [pb])) ∧
  (∀ s pb, Parse s = inr pb →
     __init__ (GraphStr s) copy h =
       (Ok (RoutingTable (length h)), h ++ [pb])) ∧
  (∀ b pb, ParseFromString b = inr pb →
     __init__ (GraphBytes b) copy h =
       (Ok (RoutingTable (length h)), h ++ [pb])).
Proof.
  assert (∃ x, (__init__ graph copy h).2 = h ++ [x]) as Hone.
  { unfold __init__. erewrite bind_Ok by reflexivity.
    rewrite try_except_keeps_state by done.
    destruct graph as [|g|p|d|s|b|o]; try destruct copy;
      rewrite ?bind_keeps_state by done;
      try apply copy_from_appends; try apply fill_appends; by eexists. }
  split_and!.
  - exact Hone.
  - intros l Hl. destruct Hone as [x ->]. by rewrite lookup_app_l.
  - intros d pb Hd. unfold __init__, try_except.
    erewrite bind_Ok by reflexivity. rewrite Hd. simpl.
    unfold bind, call. rewrite lookup_app_r, Nat.sub_diag by lia. simpl.
    by rewrite insert_last.
  - intros s pb Hs. unfold __init__, try_except.
    erewrite bind_Ok by reflexivity. rewrite Hs. simpl.
    unfold bind, call. rewrite lookup_app_r, Nat.sub_diag by lia. simpl.
    by rewrite insert_last.
  - intros b pb Hb. unfold __init__, try_except.
    erewrite bind_Ok by reflexivity. rewrite Hb. simpl.
    unfold bind, call. rewrite lookup_app_r, Nat.sub_diag by lia. simpl.
    by rewrite insert_last.
Qed.

End heap_properties.

Lemma get_next_targets_snapshots_witness :
  [diamond; fan_out] !! 1%nat = Some fan_out ∧
  ∃ targets h',
    get_next_targets (H := no_decoders) (RoutingTable 1) [diamond; fan_out]
      = (Ok targets, h') ∧
    length targets = 2%nat ∧
    h' !! 0%nat = Some diamond.
Proof.
  split; [reflexivity|].
  destruct (get_next_targets_snapshots (H := no_decoders) [diamond; fan_out]
              (RoutingTable 1) fan_out
              {| host := EmptyString; port := 0; out_edges := ["B"; "C"];
                 expected_parts := 0 |} eq_refl eq_refl)
    as (targets & h' & Hrun & Hlen & Hold & _).
  exists targets, h'. split_and!; [exact Hrun|exact Hlen|].
  apply (Hold 0%nat). simpl. lia.
Defined.

Lemma get_next_targets_missing_active_witness :
  MessageMap.contains (jina_pb2.active_pod dangling_active)
    (pods dangling_active) = false ∧
  get_next_targets (H := no_decoders) (RoutingTable 0) [dangling_active] =
    (Ok [],
     [{| pods := [("A", TargetPodProto_new)];
         jina_pb2.active_pod := "A" |}]).
Proof.
  split; [reflexivity|].
  apply (get_next_targets_missing_active (H := no_decoders)
           [dangling_active] (RoutingTable 0) dangling_active);
    reflexivity.
Defined.

Lemma init_reference_aliases_witness :
  [fan_out] !! 0%nat = Some fan_out ∧
  ∃ S h0,
    __init__ (H := no_decoders) (GraphTable (RoutingTable 0)) false [fan_out]
      = (Ok S, h0) ∧
    (call (_pb_body S) (add_edge "C" "D") h0).2 !! 0%nat
      = Some (add_edge "C" "D" fan_out).2.
Proof.
  split; [reflexivity|].
  destruct (init_reference_aliases (H := no_decoders) [fan_out]
              (RoutingTable 0) fan_out eq_refl)
    as ((S & h0 & Hinit & _ & _ & Hshared) & _).
  exists S, h0. split; [exact Hinit|].
  apply (Hshared _ (add_edge "C" "D")).
Defined.

Lemma init_allocates_one_witness :
  ParseFromString (Externals := empty_only_decoders) []
    = inr RoutingTableProto_new ∧
  __init__ (@GraphBytes empty_only_decoders []) true [fan_out] =
    (Ok (RoutingTable 1), [fan_out; RoutingTableProto_new]) ∧
  (__init__ (@GraphOther empty_only_decoders (PyInt 7)) true [fan_out]).2
    !! 0%nat = Some fan_out.
Proof.
  split; [reflexivity|].
  destruct (init_allocates_one (H := empty_only_decoders)
              (@GraphOther empty_only_decoders (PyInt 7)) true [fan_out])
    as (_ & Hold & _ & _ & Hbytes).
  split; [apply Hbytes; reflexivity|].
  apply (Hold 0%nat). simpl. lia.
Defined.

(** ** Counters and edges agree *)

Lemma occurrences_app n l1 l2 :
  occurrences n (l1 ++ l2) = (occurrences n l1 + occurrences n l2)%nat.
Proof. unfold occurrences. by rewrite filter_app, length_app. Qed.

Lemma in_degree_pods_app n pb m1 m2 :
  in_degree n (with_pods pb (m1 ++ m2)) =
  (in_degree n (with_pods pb m1) + in_degree n (with_pods pb m2))%nat.
Proof. unfold in_degree. simpl. by rewrite fmap_app, sum_list_with_app. Qed.

Lemma in_degree_get_or_create n pb k :
  in_degree n
    (with_pods pb (MessageMap.get_or_create TargetPodProto_new k (pods pb)))
  = in_degree n pb.
Proof.
  unfold MessageMap.get_or_create.
  destruct (MessageMap.lookup k (pods pb)); [by rewrite with_pods_same|].
  rewrite in_degree_pods_app, with_pods_same. unfold in_degree at 2.
  simpl. unfold occurrences. simpl. lia.
Qed.

Lemma in_degree_alter n pb f k tp :
  MessageMap.lookup k (pods pb) = Some tp →
  (in_degree n (with_pods pb (MessageMap.alter f k (pods pb)))
   + occurrences n (out_edges tp)
   = in_degree n pb + occurrences n (out_edges (f tp)))%nat.
Proof.
  unfold in_degree. simpl.
  induction (pods pb) as [|[k' v] m IH]; simpl; [done|].
  destruct (decide (k = k')) as [->|Hne]; simpl.
  - intros [= ->]. lia.
  - intros Hk. specialize (IH Hk). unfold fmap in IH. lia.
Qed.

Lemma in_degree_add_edge n f t pb :
  in_degree n (add_edge f t pb).2 =
  (in_degree n pb + if decide (n = t) then 1 else 0)%nat.
Proof.
  rewrite add_edge_run. cbn [snd]. unfold pods_after_edge.
  set (pb1 := with_pods pb
                (MessageMap.get_or_create TargetPodProto_new f (pods pb))).
  destruct (get_or_create_is_Some TargetPodProto_new f (pods pb))
    as [tp Htp].
  pose proof (in_degree_alter n pb1 (append_edge t) f tp Htp) as Hstep.
  set (pb2 := with_pods pb1
                (MessageMap.alter (append_edge t) f (pods pb1))) in *.
  set (pb3 := with_pods pb2
                (MessageMap.get_or_create TargetPodProto_new t (pods pb2))).
  destruct (get_or_create_is_Some TargetPodProto_new t (pods pb2))
    as [tq Htq].
  pose proof (in_degree_alter n pb3
    (store_parts (expected_parts
       (default TargetPodProto_new (MessageMap.lookup t (pods pb3))) + 1))
    t tq Htq) as Hlast.
  change (in_degree n (with_pods pb ?m))
    with (in_degree n (with_pods pb3 m)).
  simpl in Hlast.
  assert (in_degree n pb3 = in_degree n pb2) as H3
    by apply in_degree_get_or_create.
  assert (in_degree n pb1 = in_degree n pb) as H1
    by apply in_degree_get_or_create.
  simpl in Hstep. rewrite occurrences_app in Hstep.
  assert (occurrences n [t] = if decide (n = t) then 1 else 0)%nat as Ht.
  { unfold occurrences. rewrite filter_cons, filter_nil.
    destruct (decide (t = n)) as [->|Hne];
      [by rewrite decide_True|by rewrite decide_False]. }
  unfold pb3, pb2, pb1 in *. simpl in *. lia.
Qed.

Lemma parts_of_add_edge n f t pb :
  parts_of n (add_edge f t pb).2 =
  parts_of n pb + (if decide (n = t) then 1 else 0).
Proof.
  rewrite add_edge_run. unfold parts_of. simpl.
  rewrite lookup_pods_after_edge.
  change (slot_after_edge f t n ?o) with (slot_after_edges [(f, t)] n o).
  rewrite slot_after_edges_default. simpl.
  rewrite calls_to_cons. simpl. lia.
Qed.

Lemma in_degree_add_pod n name h p pb :
  in_degree n (add_pod name h p pb).2 = in_degree n pb.
Proof.
  destruct (MessageMap.contains name (pods pb)) eqn:Hin.
  { by rewrite add_pod_taken. }
  rewrite add_pod_fresh by done. cbn [snd].
  rewrite in_degree_pods_app, with_pods_same. unfold in_degree at 2.
  simpl. unfold occurrences. simpl. lia.
Qed.

Lemma build_balanced script pb :
  (∀ n, parts_of n pb = Z.of_nat (in_degree n pb)) →
  ∀ n, parts_of n (build script pb) = Z.of_nat (in_degree n (build script pb)).
Proof.
  revert pb. induction script as [|op script IH]; intros pb Hbal; [done|].
  simpl. apply IH. intros n. destruct op as [name h p|f t]; simpl.
  - rewrite in_degree_add_pod, <-Hbal. apply keeps_add_pod.
  - rewrite in_degree_add_edge, parts_of_add_edge, Hbal.
    case_decide; lia.
Qed.

(** X14: on a table wired from the empty one by any script of [add_pod]
    and [add_edge] calls, the expected-parts counter of every name equals
    the number of out-edges in the table that end at that name, counted
    with repetitions; reading the counter through the table gives that
    number. *)
Theorem expected_parts_is_in_degree (script : list build_op) (n : string) :
  parts_of n (build script RoutingTableProto_new)
    = Z.of_nat (in_degree n (build script RoutingTableProto_new)) ∧
  (read_expected_parts n (build script RoutingTableProto_new)).1
    = Ok (Z.of_nat (in_degree n (build script RoutingTableProto_new))).
Proof.
  assert (parts_of n (build script RoutingTableProto_new)
          = Z.of_nat (in_degree n (build script RoutingTableProto_new)))
    as Hbal by by apply build_balanced.
  split; [done|]. rewrite read_expected_parts_run. simpl. by rewrite Hbal.
Qed.

(** ** Cycles do not go away *)

Lemma edge_after_op op pb a b :
  edge pb a b → edge (run_op op pb).2 a b.
Proof.
  intros [Hb [tb Htb]]. unfold edge, edges_of in *.
  destruct (MessageMap.lookup a (pods pb)) as [ta|] eqn:Hta;
    [|by apply elem_of_nil in Hb].
  simpl in Hb. destruct op as [name h p|f t]; simpl.
  - destruct (MessageMap.contains name (pods pb)) eqn:Hin.
    { rewrite add_pod_taken by done. simpl. rewrite Hta, Htb. eauto. }
    rewrite add_pod_fresh by done. simpl.
    rewrite !lookup_app, Hta, Htb. eauto.
  - rewrite add_edge_run. simpl. rewrite !lookup_pods_after_edge.
    change (slot_after_edge f t ?n ?o)
      with (slot_after_edges [(f, t)] n o).
    rewrite Hta, Htb, !slot_after_edges_Some. simpl. split; [|eauto].
    apply elem_of_app. by left.
Qed.

Lemma proper_cycle_after_op op pb :
  has_proper_cycle pb → has_proper_cycle (run_op op pb).2.
Proof.
  intros (a & b & Hne & Hab & Hba). exists a, b.
  assert (∀ x y, tc (edge pb) x y → tc (edge (run_op op pb).2) x y) as Hmono.
  { intros x y Hxy. induction Hxy as [x y Hxy|x y z Hxy _ IH].
    - by apply tc_once, edge_after_op.
    - eapply tc_l; [by apply edge_after_op|done]. }
  split_and!; [done|by apply Hmono..].
Qed.

Lemma length_get_or_create {V} (dflt : V) k (m : list (string * V)) :
  (length m ≤ length (MessageMap.get_or_create dflt k m))%nat.
Proof.
  unfold MessageMap.get_or_create.
  destruct (MessageMap.lookup k m); [done|]. rewrite length_app. lia.
Qed.

Lemma length_alter {V} (f : V → V) k (m : list (string * V)) :
  length (MessageMap.alter f k m) = length m.
Proof.
  rewrite <-(length_fmap fst (MessageMap.alter f k m)), <-(length_fmap fst m).
  f_equal. apply keys_alter.
Qed.

Lemma length_pods_after_op op pb :
  (length (pods pb) ≤ length (pods (run_op op pb).2))%nat.
Proof.
  destruct op as [name h p|f t]; simpl.
  - destruct (MessageMap.contains name (pods pb)) eqn:Hin.
    { by rewrite add_pod_taken. }
    rewrite add_pod_fresh by done. simpl. rewrite length_app. lia.
  - rewrite add_edge_run. cbn [snd pods with_pods].
    unfold pods_after_edge. rewrite length_alter.
    etrans; [|apply length_get_or_create]. rewrite length_alter.
    apply length_get_or_create.
Qed.

Lemma two_cycle_well_formed : well_formed two_cycle.
Proof.
  apply (build_well_formed [AddEdge "A" "B"; AddEdge "B" "A"]
           RoutingTableProto_new new_well_formed).
Qed.

(** ** Which operations change a counter *)

Lemma keeps_active_out_edges :
  keeps_parts (name <- active_pod ;; _get_out_edges name).
Proof.
  apply keeps_bind; [by intros pb k|]. intros name.
  apply keeps_get_out_edges.
Qed.

Lemma parts_of_with_active pb name k :
  parts_of k (with_active pb name) = parts_of k pb.
Proof. reflexivity. Qed.

Section counters.
Context `{Externals}.

Lemma init_appends (graph : graph_arg) (copy : bool) (h : heap) :
  ∃ x, (__init__ graph copy h).2 = h ++ [x].
Proof.
  unfold __init__. erewrite bind_Ok by reflexivity.
  rewrite try_except_keeps_state by done.
  destruct graph as [|g|p|d|s|b|o]; try destruct copy;
    rewrite ?bind_keeps_state by done;
    try apply copy_from_appends; try apply fill_appends; by eexists.
Qed.

(** What [get_next_targets] leaves on the heap: the source's message
    after the out-edge lookup, then one message per out-edge that differs
    from it in the active pod only; all other messages are as before. *)
Lemma get_next_targets_heap (self : t) (h : heap) :
  (get_next_targets self h).2 = h ∨
  ∃ pb edges,
    h !! _pb_body self = Some pb ∧
    (get_next_targets self h).2 =
      <[_pb_body self :=
          ((name <- active_pod ;; _get_out_edges name) pb).2]> h
      ++ (with_active ((name <- active_pod ;; _get_out_edges name) pb).2
            <$> edges).
Proof.
  destruct (h !! _pb_body self) as [pb|] eqn:Hself.
  - right. exists pb.
    destruct ((name <- active_pod ;; _get_out_edges name) pb)
      as [r pb1] eqn:Hbody.
    assert (r = Ok (edges_of (jina_pb2.active_pod pb) pb)) as ->.
    { unfold bind, active_pod in Hbody. simpl in Hbody.
      rewrite _get_out_edges_run in Hbody. by injection Hbody as <- _. }
    exists (edges_of (jina_pb2.active_pod pb) pb). split; [done|].
    unfold get_next_targets.
    erewrite bind_Ok by (eapply call_run; [exact Hself|exact Hbody]).
    erewrite next_targets_loop; [done|].
    apply list_lookup_insert_eq. by eapply lookup_lt_Some.
  - left. unfold get_next_targets, bind, call. by rewrite Hself.
Qed.

(** C7, as the code has it.  After any sequence of [add_edge] calls on
    an empty table, the expected-parts counter read for a name [n] is the
    number of calls that had [n] as their target, and a permutation of
    the calls gives the same reading; [add_edge] leaves both of its
    endpoints as keys of [pods].  Among the operations of the routing
    table [add_edge] is the only one that changes a counter: [add_pod],
    the [active_pod] setter, [active_target_pod], the out-edge lookup and
    [is_acyclic] keep the counter of every name whatever their outcome;
    [get_next_targets] and the constructor keep the counters of every
    message that existed, and the snapshots of [get_next_targets] carry
    the counters of their source.  The setter of
    [TargetPod.expected_parts], however, reached through
    [active_target_pod], stores any value that its field admits in the
    counter of the active pod without a call of [add_edge]. *)
Theorem add_edges_expected_parts (calls : list (string * string)) (n : string) :
  (∃ pb, add_edges calls RoutingTableProto_new = (Ok tt, pb) ∧
     (read_expected_parts n pb).1 = Ok (Z.of_nat (length (calls_to n calls))) ∧
     ∀ calls', calls' ≡ₚ calls →
       ∃ pb', add_edges calls' RoutingTableProto_new = (Ok tt, pb') ∧
         (read_expected_parts n pb').1 = (read_expected_parts n pb).1) ∧
  (∀ from_pod to_pod pb,
     let pb' := (add_edge from_pod to_pod pb).2 in
     MessageMap.contains from_pod (pods pb') = true ∧
     MessageMap.contains to_pod (pods pb') = true) ∧
  (∀ name host port, keeps_parts (add_pod name host port)) ∧
  (∀ name, keeps_parts (set_active_pod name)) ∧
  keeps_parts active_target_pod ∧
  (∀ pod, keeps_parts (_get_out_edges pod)) ∧
  keeps_parts is_acyclic ∧
  (∀ (h : heap) self l k, (l < length h)%nat →
     parts_of k <$> (get_next_targets self h).2 !! l = parts_of k <$> h !! l) ∧
  (∀ (h : heap) self pb l pb' k,
     h !! _pb_body self = Some pb → (length h ≤ l)%nat →
     (get_next_targets self h).2 !! l = Some pb' →
     parts_of k pb' = parts_of k pb) ∧
  (∀ graph copy (h : heap) l, (l < length h)%nat →
     (__init__ graph copy h).2 !! l = h !! l) ∧
  (∀ (ranges : FieldRanges) pb value,
     parts_min ≤ value ≤ parts_max →
     ∃ pb',
       (tp <- active_target_pod ;; set_expected_parts_checked tp value) pb
         = (Ok tt, pb') ∧
       parts_of (jina_pb2.active_pod pb) pb' = value).
Proof.
  split_and!.
  - destruct (add_edges_parts calls n) as (pb & Hrun & Hparts & _).
    exists pb. split; [done|].
    rewrite read_expected_parts_run. simpl. rewrite Hparts.
    split; [done|]. intros calls' Hperm.
    destruct (add_edges_parts calls' n) as (pb' & Hrun' & Hparts' & _).
    exists pb'. split; [done|].
    rewrite read_expected_parts_run. simpl.
    by rewrite Hparts', (calls_to_Permutation _ _ _ Hperm).
  - intros f t pb. simpl. rewrite !contains_true.
    apply add_edge_creates_endpoints.
  - apply keeps_add_pod.
  - apply keeps_set_active_pod.
  - apply keeps_active_target_pod.
  - apply keeps_get_out_edges.
  - apply keeps_is_acyclic.
  - intros h self l k Hl.
    destruct (get_next_targets_heap self h) as [->|(pb & edges & Hself & ->)];
      [done|].
    rewrite lookup_app_l by by rewrite length_insert.
    pose proof (call_keeps_parts (_pb_body self) l
                  (name <- active_pod ;; _get_out_edges name) h k
                  keeps_active_out_edges) as Hcall.
    unfold call in Hcall. rewrite Hself in Hcall.
    destruct ((name <- active_pod ;; _get_out_edges name) pb) as [r pb1].
    exact Hcall.
  - intros h self pb l pb' k Hself Hl.
    destruct (get_next_targets_heap self h)
      as [->|(pb0 & edges & Hself0 & ->)].
    { intros Hlook. apply lookup_lt_Some in Hlook. lia. }
    rewrite Hself in Hself0. injection Hself0 as <-.
    rewrite lookup_app_r by by rewrite length_insert.
    rewrite list_lookup_fmap. intros Hlook.
    destruct (edges !! _) as [e|]; [|done]. injection Hlook as <-.
    rewrite parts_of_with_active. apply keeps_active_out_edges.
  - intros graph copy h l Hl.
    destruct (init_appends graph copy h) as [x ->]. by rewrite lookup_app_l.
  - intros ranges pb value Hrange. unfold active_target_pod.
    erewrite bind_Ok; cycle 1.
    { erewrite bind_Ok by reflexivity.
      erewrite bind_Ok by apply pods_getitem_run. reflexivity. }
    unfold set_expected_parts_checked.
    rewrite bool_decide_eq_true_2 by done.
    rewrite TargetPod_set_expected_parts_run
      by apply get_or_create_is_Some.
    eexists. split; [reflexivity|].
    unfold parts_of. cbn [snd pods with_pods].
    rewrite lookup_alter, decide_True by done.
    destruct (get_or_create_is_Some TargetPodProto_new
                (jina_pb2.active_pod pb) (pods pb)) as [tp ->].
    done.
Qed.

End counters.

Lemma add_edges_expected_parts_witness :
  [("B", "C"); ("A", "C"); ("A", "B")] ≡ₚ
    [("A", "B"); ("A", "C"); ("B", "C")] ∧
  (read_expected_parts "C"
     (add_edges [("A", "B"); ("A", "C"); ("B", "C")]
        RoutingTableProto_new).2).1 = Ok 2 ∧
  (read_expected_parts "C"
     (add_edges [("B", "C"); ("A", "C"); ("A", "B")]
        RoutingTableProto_new).2).1 = Ok 2 ∧
  (get_next_targets (H := no_decoders) (RoutingTable 0) [fan_out]).2 !! 2%nat
    = Some (with_active fan_out "C") ∧
  parts_of "C" (with_active fan_out "C") = parts_of "C" fan_out.
Proof.
  assert ([("B", "C"); ("A", "C"); ("A", "B")] ≡ₚ
          [("A", "B"); ("A", "C"); ("B", "C")]) as Hperm.
  { solve_Permutation. }
  split; [exact Hperm|].
  destruct (add_edges_expected_parts (H := no_decoders)
              [("A", "B"); ("A", "C"); ("B", "C")] "C")
    as ((pb & Hrun & Hread & Hany) & _ & _ & _ & _ & _ & _ & _ & Hsnap & _).
  destruct (Hany _ Hperm) as (pb' & Hrun' & Hread').
  rewrite Hrun, Hrun'. simpl. rewrite Hread'.
  split_and!; [exact Hread|exact Hread|reflexivity|].
  apply (Hsnap [fan_out] (RoutingTable 0) fan_out 2%nat
           (with_active fan_out "C") "C");
    [reflexivity|vm_compute; lia|reflexivity].
Defined.

(** C7 as stated fails: the counter of the active pod of the table with
    out-edges [A→B] and [A→C] is 0, and storing 7 through the descriptor
    that [active_target_pod] returns changes it without any call of
    [add_edge]; the range check of an unsigned 32-bit field lets the
    store through. *)
Lemma expected_parts_setter_counterexample :
  parts_of "A" fan_out = 0 ∧
  ((tp <- active_target_pod ;; TargetPod.set_expected_parts tp 7) fan_out).1
    = Ok tt ∧
  parts_of "A"
    ((tp <- active_target_pod ;; TargetPod.set_expected_parts tp 7)
       fan_out).2 = 7 ∧
  ¬ keeps_parts (tp <- active_target_pod ;; TargetPod.set_expected_parts tp 7) ∧
  ((tp <- active_target_pod ;;
    set_expected_parts_checked (H := uint32_ranges) tp 7) fan_out).1
    = Ok tt ∧
  parts_of "A"
    ((tp <- active_target_pod ;;
      set_expected_parts_checked (H := uint32_ranges) tp 7) fan_out).2 = 7 ∧
  ¬ keeps_parts (tp <- active_target_pod ;;
                 set_expected_parts_checked (H := uint32_ranges) tp 7).
Proof.
  split_and!; try reflexivity.
  - intros Hkeeps. specialize (Hkeeps fan_out "A"). vm_compute in Hkeeps.
    discriminate Hkeeps.
  - intros Hkeeps. specialize (Hkeeps fan_out "A"). vm_compute in Hkeeps.
    discriminate Hkeeps.
Qed.

(** ** Counters at the edge of their range *)

Section range_checked_edges.
Context `{FieldRanges}.

Lemma add_edge_checked_in_range from_pod to_pod pb :
  parts_min ≤ parts_of to_pod pb + 1 ≤ parts_max →
  add_edge_checked from_pod to_pod pb = add_edge from_pod to_pod pb.
Proof.
  intros Hrange. unfold add_edge_checked, add_edge.
  erewrite !(bind_Ok (_get_target_pod from_pod)) by apply _get_target_pod_run.
  erewrite !(bind_Ok (TargetPod.add_edge _ _))
    by (apply TargetPod_add_edge_run; apply get_or_create_is_Some).
  erewrite !(bind_Ok (_get_target_pod to_pod)) by apply _get_target_pod_run.
  cbn [pods with_pods].
  set (m3 := MessageMap.get_or_create _ to_pod _).
  destruct (get_or_create_is_Some TargetPodProto_new to_pod
    (MessageMap.alter (append_edge to_pod) from_pod
       (MessageMap.get_or_create TargetPodProto_new from_pod (pods pb))))
    as [tp Htp].
  fold m3 in Htp.
  erewrite !(bind_Ok (TargetPod.expected_parts _))
    by (apply TargetPod_expected_parts_run; exact Htp).
  unfold set_expected_parts_checked. rewrite bool_decide_eq_true_2; [done|].
  assert (expected_parts tp = parts_of to_pod pb) as ->; [|done].
  unfold parts_of, m3 in *.
  rewrite lookup_get_or_create, decide_True in Htp by done.
  injection Htp as <-.
  rewrite lookup_alter, lookup_get_or_create.
  destruct (decide (to_pod = from_pod)) as [->|Hne];
    by destruct (MessageMap.lookup _ (pods pb)).
Qed.

(** When the counter is at the top of its range, the call raises after
    the out-edge has been appended and the target created. *)
Lemma add_edge_checked_above from_pod to_pod pb :
  ¬ (parts_min ≤ parts_of to_pod pb + 1 ≤ parts_max) →
  add_edge_checked from_pod to_pod pb =
  (Raise (out_of_range (parts_of to_pod pb + 1)),
   with_pods pb
     (MessageMap.get_or_create TargetPodProto_new to_pod
        (MessageMap.alter (append_edge to_pod) from_pod
           (MessageMap.get_or_create TargetPodProto_new from_pod
              (pods pb))))).
Proof.
  intros Hrange. unfold add_edge_checked.
  erewrite bind_Ok by apply _get_target_pod_run.
  erewrite bind_Ok
    by (apply TargetPod_add_edge_run; apply get_or_create_is_Some).
  erewrite bind_Ok by apply _get_target_pod_run.
  cbn [pods with_pods].
  set (m3 := MessageMap.get_or_create _ to_pod _).
  destruct (get_or_create_is_Some TargetPodProto_new to_pod
    (MessageMap.alter (append_edge to_pod) from_pod
       (MessageMap.get_or_create TargetPodProto_new from_pod (pods pb))))
    as [tp Htp].
  fold m3 in Htp.
  erewrite bind_Ok by (apply TargetPod_expected_parts_run; exact Htp).
  assert (expected_parts tp = parts_of to_pod pb) as ->.
  { unfold parts_of, m3 in *.
    rewrite lookup_get_or_create, decide_True in Htp by done.
    injection Htp as <-.
    rewrite lookup_alter, lookup_get_or_create.
    destruct (decide (to_pod = from_pod)) as [->|Hne];
      by destruct (MessageMap.lookup _ (pods pb)). }
  unfold set_expected_parts_checked. by rewrite bool_decide_eq_false_2.
Qed.

Lemma calls_to_pos n f t calls :
  n ∈ ((f, t) :: calls).*2 →
  1 ≤ Z.of_nat (length (calls_to n ((f, t) :: calls))).
Proof.
  revert f t. induction calls as [|[f' t'] calls IH]; intros f t Hn.
  - simpl in Hn. apply list_elem_of_singleton in Hn as ->.
    rewrite calls_to_cons, decide_True by done. simpl. lia.
  - rewrite calls_to_cons. simpl in Hn.
    apply elem_of_cons in Hn as [->|Hn].
    + rewrite decide_True by done. lia.
    + specialize (IH f' t' Hn). case_decide; lia.
Qed.

Lemma add_edges_checked_in_range calls pb :
  (∀ n, n ∈ calls.*2 →
     parts_min ≤ parts_of n pb + 1 ∧
     parts_of n pb + Z.of_nat (length (calls_to n calls)) ≤ parts_max) →
  add_edges_checked calls pb = add_edges calls pb.
Proof.
  revert pb. induction calls as [|[f t] calls IH]; intros pb Hrange; [done|].
  unfold add_edges_checked, add_edges in *. cbn [for_each].
  assert (t ∈ ((f, t) :: calls).*2) as Ht by apply list_elem_of_here.
  pose proof (calls_to_pos t f t calls Ht) as Hpos.
  destruct (Hrange t Ht) as [Hlo Hhi].
  erewrite bind_Ok;
    [|rewrite add_edge_checked_in_range by lia; apply add_edge_run].
  erewrite (bind_Ok (add_edge f t)) by apply add_edge_run.
  apply IH. intros n Hn.
  pose proof (parts_of_add_edge n f t pb) as Hstep.
  rewrite add_edge_run in Hstep. cbn [snd] in Hstep. rewrite Hstep.
  destruct (Hrange n) as [Hlo' Hhi']; [by right|].
  rewrite calls_to_cons in Hhi'. case_decide; lia.
Qed.

(** X1: a sequence of [add_edge] calls on any table, empty or not, in
    which no counter leaves the range of its field, never raises and
    keeps the active pod.  For every name it appends, in call order, the
    targets of the calls that start at it to the out-edges that were
    there, adds the number of calls that end at it to the counter that
    was there, and keeps host and port; a name is a pod afterwards
    exactly when it was one before or occurs in a call. *)
Theorem add_edges_extends (calls : list (string * string))
    (pb : RoutingTableProto) :
  (∀ n, n ∈ calls.*2 →
     parts_min ≤ expected_parts (descriptor n pb) + 1 ∧
     expected_parts (descriptor n pb) + Z.of_nat (length (calls_to n calls))
       ≤ parts_max) →
  ∃ pb', add_edges_checked calls pb = (Ok tt, pb') ∧
    jina_pb2.active_pod pb' = jina_pb2.active_pod pb ∧
    ∀ n,
      descriptor n pb' =
        {| host := host (descriptor n pb);
           port := port (descriptor n pb);
           out_edges := out_edges (descriptor n pb) ++ targets_from n calls;
           expected_parts := expected_parts (descriptor n pb)
                             + Z.of_nat (length (calls_to n calls)) |} ∧
      (is_Some (MessageMap.lookup n (pods pb')) ↔
       is_Some (MessageMap.lookup n (pods pb)) ∨ mentions n calls).
Proof.
  intros Hrange. rewrite add_edges_checked_in_range by exact Hrange.
  destruct (add_edges_run calls pb) as (pb' & Hrun & Hact & Hlook).
  exists pb'. split_and!; [done..|]. intros n. unfold descriptor.
  rewrite Hlook. split.
  - apply slot_after_edges_default.
  - apply slot_after_edges_is_Some.
Qed.

(** X16: when the counter of the target is at the top of its range,
    [add_edge] raises [ValueError], but only after it has created both
    endpoints and appended the out-edge: the table is left with one more
    edge into the target than its counter says, and every counter as it
    was. *)
Theorem add_edge_overflow_is_partial (from_pod to_pod : string)
    (pb : RoutingTableProto) :
  ¬ (parts_min ≤ expected_parts (descriptor to_pod pb) + 1 ≤ parts_max) →
  ∃ pb', add_edge_checked from_pod to_pod pb =
           (Raise (out_of_range (expected_parts (descriptor to_pod pb) + 1)),
            pb') ∧
    out_edges (descriptor from_pod pb')
      = out_edges (descriptor from_pod pb) ++ [to_pod] ∧
    is_Some (MessageMap.lookup from_pod (pods pb')) ∧
    is_Some (MessageMap.lookup to_pod (pods pb')) ∧
    (∀ n, expected_parts (descriptor n pb') = expected_parts (descriptor n pb)) ∧
    in_degree to_pod pb' = S (in_degree to_pod pb).
Proof.
  intros Hrange. rewrite add_edge_checked_above by exact Hrange.
  eexists. split; [reflexivity|].
  set (m1 := MessageMap.get_or_create TargetPodProto_new from_pod (pods pb)).
  set (m2 := MessageMap.alter (append_edge to_pod) from_pod m1).
  assert (∀ n, MessageMap.lookup n m2 =
               if decide (n = from_pod)
               then Some (append_edge to_pod (descriptor n pb))
               else MessageMap.lookup n (pods pb)) as Hm2.
  { intros n. unfold m2, m1, descriptor.
    rewrite lookup_alter, lookup_get_or_create. by case_decide. }
  split_and!.
  - unfold descriptor at 1. cbn [pods with_pods].
    rewrite lookup_get_or_create, Hm2.
    rewrite (decide_True (P := from_pod = from_pod)) by done.
    by case_decide.
  - cbn [pods with_pods]. rewrite lookup_get_or_create, Hm2.
    rewrite (decide_True (P := from_pod = from_pod)) by done.
    case_decide; eauto.
  - cbn [pods with_pods]. apply get_or_create_is_Some.
  - intros n. unfold descriptor at 1. cbn [pods with_pods].
    rewrite lookup_get_or_create, Hm2. unfold descriptor.
    repeat case_decide; simplify_eq; simpl;
      by destruct (MessageMap.lookup _ (pods pb)).
  - pose proof (in_degree_get_or_create to_pod (with_pods pb m2) to_pod)
      as H3.
    change (with_pods (with_pods pb m2) ?x) with (with_pods pb x) in H3.
    cbn [pods with_pods] in H3. rewrite H3.
    destruct (get_or_create_is_Some TargetPodProto_new from_pod (pods pb))
      as [tp Htp].
    pose proof (in_degree_alter to_pod (with_pods pb m1)
                  (append_edge to_pod) from_pod tp Htp) as Hstep.
    change (with_pods (with_pods pb m1) ?x) with (with_pods pb x) in Hstep.
    cbn [pods with_pods] in Hstep. fold m2 in Hstep.
    pose proof (in_degree_get_or_create to_pod pb from_pod) as H1.
    fold m1 in H1.
    cbn [append_edge out_edges] in Hstep. rewrite occurrences_app in Hstep.
    assert (occurrences to_pod [to_pod] = 1%nat) as Hone.
    { unfold occurrences. by rewrite filter_cons, decide_True. }
    lia.
Qed.

(** ** Ports outside their range *)

Lemma add_pod_checked_in_range name host port pb :
  port_min ≤ port ≤ port_max →
  add_pod_checked name host port pb = add_pod name host port pb.
Proof.
  intros Hrange. unfold add_pod_checked, add_pod, duplicate_message.
  by rewrite bool_decide_eq_true_2.
Qed.

Lemma add_pod_checked_taken name host port pb :
  MessageMap.contains name (pods pb) = true →
  add_pod_checked name host port pb =
    (Raise (ValueError (duplicate_message name)), pb).
Proof.
  intros Hin. unfold add_pod_checked.
  erewrite bind_Ok by reflexivity. simpl. by rewrite Hin.
Qed.

Lemma add_pod_checked_above name host port pb :
  MessageMap.contains name (pods pb) = false →
  ¬ (port_min ≤ port ≤ port_max) →
  add_pod_checked name host port pb =
  (Raise (out_of_range port),
   with_pods pb
     (pods pb ++ [(name, {| jina_pb2.host := host; jina_pb2.port := 0;
                            out_edges := []; expected_parts := 0 |})])).
Proof.
  intros Hout Hrange. unfold add_pod_checked.
  rewrite bool_decide_eq_false_2 by done.
  erewrite bind_Ok by reflexivity. simpl. rewrite Hout.
  apply contains_false in Hout.
  erewrite bind_Ok by apply pods_getitem_run.
  unfold MessageMap.get_or_create. rewrite Hout.
  erewrite bind_Ok; cycle 1.
  { apply slot_modify_run. simpl.
    rewrite lookup_app, Hout. simpl. rewrite decide_True by done. eauto. }
  cbn [pods with_pods]. by rewrite alter_app_new.
Qed.

(** X2: [add_pod] on a name without an entry, with a port inside the
    range of the field, succeeds.  Afterwards the name has an entry with
    the given host and port, no out-edges and a zero counter, its
    [full_address] reads as host, colon and the port in decimal, and the
    active pod and the entries of all other names are as they were. *)
Theorem add_pod_registers (pb : RoutingTableProto) (name host : string)
    (port : Z) :
  MessageMap.contains name (pods pb) = false →
  port_min ≤ port ≤ port_max →
  ∃ pb', add_pod_checked name host port pb = (Ok tt, pb') ∧
    jina_pb2.active_pod pb' = jina_pb2.active_pod pb ∧
    MessageMap.lookup name (pods pb') =
      Some {| jina_pb2.host := host; jina_pb2.port := port;
              out_edges := []; expected_parts := 0 |} ∧
    (∀ n, n ≠ name →
       MessageMap.lookup n (pods pb') = MessageMap.lookup n (pods pb)) ∧
    TargetPod.full_address (TargetPod.TargetPod (SlotRef name)) pb' =
      (Ok (host +:+ ":" +:+ pretty port), pb').
Proof.
  intros Hfresh Hrange.
  rewrite add_pod_checked_in_range, add_pod_fresh by done.
  apply contains_false in Hfresh.
  eexists. split; [reflexivity|]. simpl.
  set (tp := {| jina_pb2.host := host; jina_pb2.port := port;
                out_edges := []; expected_parts := 0 |}).
  assert (MessageMap.lookup name (pods pb ++ [(name, tp)]) = Some tp) as Hnew.
  { rewrite lookup_app, Hfresh. simpl. by rewrite decide_True. }
  split_and!; [done|done| |].
  - intros n Hne. rewrite lookup_app. simpl. rewrite decide_False by done.
    by destruct (MessageMap.lookup n (pods pb)).
  - unfold TargetPod.full_address.
    erewrite bind_Ok by (apply TargetPod_host_run; exact Hnew).
    erewrite bind_Ok by (apply TargetPod_port_run; exact Hnew).
    done.
Qed.

(** X17: [add_pod] on a name without an entry, with a port outside the
    range of the field, raises [ValueError], but only after it has
    created the entry and stored the host: the name is left registered
    with the given host and port zero, the other entries and the active
    pod are as they were, and a second [add_pod] on the name, whatever
    its port, raises the duplicate-node error and changes nothing. *)
Theorem add_pod_bad_port_is_partial (pb : RoutingTableProto)
    (name host : string) (port : Z) :
  MessageMap.contains name (pods pb) = false →
  ¬ (port_min ≤ port ≤ port_max) →
  ∃ pb', add_pod_checked name host port pb = (Raise (out_of_range port), pb') ∧
    jina_pb2.active_pod pb' = jina_pb2.active_pod pb ∧
    MessageMap.lookup name (pods pb') =
      Some {| jina_pb2.host := host; jina_pb2.port := 0;
              out_edges := []; expected_parts := 0 |} ∧
    (∀ n, n ≠ name →
       MessageMap.lookup n (pods pb') = MessageMap.lookup n (pods pb)) ∧
    ∀ host' port',
      add_pod_checked name host' port' pb' =
        (Raise (ValueError (duplicate_message name)), pb').
Proof.
  intros Hfresh Hrange. rewrite add_pod_checked_above by done.
  apply contains_false in Hfresh.
  eexists. split; [reflexivity|]. simpl.
  set (tp := {| jina_pb2.host := host; jina_pb2.port := 0;
                out_edges := []; expected_parts := 0 |}).
  assert (MessageMap.lookup name (pods pb ++ [(name, tp)]) = Some tp) as Hnew.
  { rewrite lookup_app, Hfresh. simpl. by rewrite decide_True. }
  split_and!; [done|done| |].
  - intros n Hne. rewrite lookup_app. simpl. rewrite decide_False by done.
    by destruct (MessageMap.lookup n (pods pb)).
  - intros host' port'. apply add_pod_checked_taken.
    apply contains_true. simpl. rewrite Hnew. eauto.
Qed.

End range_checked_edges.

Lemma add_edges_extends_witness :
  (add_edges_checked (H := uint32_ranges) [("A", "B"); ("C", "B")]
     chain_abc).1 = Ok tt ∧
  expected_parts
    (descriptor "B"
       (add_edges_checked (H := uint32_ranges) [("A", "B"); ("C", "B")]
          chain_abc).2) = 3.
Proof.
  destruct (add_edges_extends (H := uint32_ranges)
              [("A", "B"); ("C", "B")] chain_abc)
    as (pb' & Hrun & _ & Hdesc).
  { intros n Hn. simpl in Hn.
    rewrite !elem_of_cons, elem_of_nil in Hn.
    assert (n = "B") as -> by tauto. vm_compute. split; discriminate. }
  rewrite Hrun. split; [reflexivity|].
  simpl. destruct (Hdesc "B") as [-> _]. reflexivity.
Defined.

Lemma add_edge_overflow_is_partial_witness :
  expected_parts (descriptor "B" saturated) = parts_max (FieldRanges := uint32_ranges) ∧
  (add_edge_checked (H := uint32_ranges) "A" "B" saturated).1
    = Raise (out_of_range 4294967296) ∧
  out_edges
    (descriptor "A" (add_edge_checked (H := uint32_ranges) "A" "B" saturated).2)
    = ["B"].
Proof.
  split; [reflexivity|].
  destruct (add_edge_overflow_is_partial (H := uint32_ranges) "A" "B" saturated)
    as (pb' & Hrun & Hedges & _).
  { vm_compute. intros [_ Hhi]. by apply Hhi. }
  rewrite Hrun. split; [reflexivity|]. simpl. exact Hedges.
Defined.

Lemma add_pod_registers_witness :
  MessageMap.contains "D" (pods chain_abc) = false ∧
  port_min (FieldRanges := uint32_ranges) ≤ 8083
    ≤ port_max (FieldRanges := uint32_ranges) ∧
  TargetPod.full_address (TargetPod.TargetPod (SlotRef "D"))
    (add_pod_checked (H := uint32_ranges) "D" "10.0.0.4" 8083 chain_abc).2
  = (Ok "10.0.0.4:8083",
     (add_pod_checked (H := uint32_ranges) "D" "10.0.0.4" 8083 chain_abc).2).
Proof.
  assert (port_min (FieldRanges := uint32_ranges) ≤ 8083
            ≤ port_max (FieldRanges := uint32_ranges)) as Hrange
    by (vm_compute; split; discriminate).
  split; [reflexivity|]. split; [exact Hrange|].
  destruct (add_pod_registers (H := uint32_ranges) chain_abc "D" "10.0.0.4"
              8083 eq_refl Hrange)
    as (pb' & Hrun & _ & _ & _ & Haddr).
  rewrite Hrun. exact Haddr.
Defined.

Lemma add_pod_bad_port_is_partial_witness :
  MessageMap.contains "D" (pods chain_abc) = false ∧
  ¬ (port_min (FieldRanges := uint32_ranges) ≤ -1
       ≤ port_max (FieldRanges := uint32_ranges)) ∧
  (add_pod_checked (H := uint32_ranges) "D" "10.0.0.4" (-1) chain_abc).1
    = Raise (out_of_range (-1)) ∧
  MessageMap.lookup "D"
    (pods (add_pod_checked (H := uint32_ranges) "D" "10.0.0.4" (-1)
             chain_abc).2)
    = Some {| jina_pb2.host := "10.0.0.4"; jina_pb2.port := 0;
              out_edges := []; expected_parts := 0 |}.
Proof.
  assert (¬ (port_min (FieldRanges := uint32_ranges) ≤ -1
               ≤ port_max (FieldRanges := uint32_ranges))) as Hrange
    by (vm_compute; intros [Hlo _]; by apply Hlo).
  split; [reflexivity|]. split; [exact Hrange|].
  destruct (add_pod_bad_port_is_partial (H := uint32_ranges) chain_abc "D"
              "10.0.0.4" (-1) eq_refl Hrange)
    as (pb' & Hrun & _ & Hlook & _).
  rewrite Hrun. split; [reflexivity|]. exact Hlook.
Defined.

(** ** Wiring under the range checks *)

Lemma same_wiring_lookup pb pb' n :
  same_wiring pb pb' →
  is_Some (MessageMap.lookup n (pods pb)) ↔
  is_Some (MessageMap.lookup n (pods pb')).
Proof. intros [Hkeys _]. by rewrite !lookup_Some_keys, Hkeys. Qed.

Lemma same_wiring_edge pb pb' a b :
  same_wiring pb pb' → edge pb a b → edge pb' a b.
Proof.
  intros Hsame [Hb Hin]. split.
  - by rewrite <-(proj2 Hsame).
  - by apply (same_wiring_lookup pb pb').
Qed.

Lemma same_wiring_well_formed pb pb' :
  same_wiring pb pb' → well_formed pb → well_formed pb'.
Proof.
  intros Hsame [Hclosed Hnd]. split.
  - intros a b Hb. apply (same_wiring_lookup pb pb'); [done|].
    apply (Hclosed a). by rewrite (proj2 Hsame).
  - by rewrite <-(proj1 Hsame).
Qed.

Lemma same_wiring_length pb pb' :
  same_wiring pb pb' → length (pods pb) = length (pods pb').
Proof.
  intros [Hkeys _].
  rewrite <-(length_fmap fst (pods pb)), <-(length_fmap fst (pods pb')).
  exact (f_equal length Hkeys).
Qed.

Section range_checked_wiring.
Context `{FieldRanges}.

(** What a wiring call leaves when a range check stops it has the names
    and edges that some unchecked call would have left. *)
Lemma run_op_checked_wiring op pb :
  ∃ op', same_wiring (run_op op' pb).2 (run_op_checked op pb).2.
Proof.
  destruct op as [name h p|f t]; simpl.
  - destruct (decide (port_min ≤ p ≤ port_max)) as [Hin|Hout].
    { exists (AddPod name h p). simpl.
      by rewrite add_pod_checked_in_range. }
    destruct (MessageMap.contains name (pods pb)) eqn:Hname.
    + exists (AddPod name h p). simpl.
      by rewrite add_pod_checked_taken, add_pod_taken.
    + exists (AddPod name h 0). simpl.
      by rewrite add_pod_checked_above, add_pod_fresh.
  - exists (AddEdge f t). simpl.
    destruct (decide (parts_min ≤ parts_of t pb + 1 ≤ parts_max))
      as [Hin|Hout].
    { by rewrite add_edge_checked_in_range. }
    rewrite add_edge_checked_above, add_edge_run by done.
    cbn [snd]. unfold pods_after_edge. split.
    + cbn [pods with_pods]. by rewrite keys_alter.
    + intros n. unfold edges_of. cbn [pods with_pods].
      rewrite lookup_alter. case_decide; [|done].
      by destruct (MessageMap.lookup n _).
Qed.

Lemma run_op_checked_well_formed op pb :
  well_formed pb → well_formed (run_op_checked op pb).2.
Proof.
  intros Hwf. destruct (run_op_checked_wiring op pb) as [op' Hsame].
  apply (same_wiring_well_formed _ _ Hsame).
  destruct op'; simpl;
    [by apply add_pod_well_formed|by apply add_edge_well_formed].
Qed.

Lemma build_checked_well_formed script pb :
  well_formed pb → well_formed (build_checked script pb).
Proof.
  revert pb. induction script as [|op script IH]; intros pb Hwf; [done|].
  simpl. by apply IH, run_op_checked_well_formed.
Qed.

Lemma proper_cycle_after_op_checked op pb :
  has_proper_cycle pb → has_proper_cycle (run_op_checked op pb).2.
Proof.
  intros Hcycle. destruct (run_op_checked_wiring op pb) as [op' Hsame].
  destruct (proper_cycle_after_op op' pb Hcycle) as (a & b & Hne & Hab & Hba).
  exists a, b.
  assert (∀ x y, tc (edge (run_op op' pb).2) x y →
                 tc (edge (run_op_checked op pb).2) x y) as Hmono.
  { intros x y Hxy. induction Hxy as [x y Hxy|x y z Hxy _ IH].
    - by apply tc_once, (same_wiring_edge _ _ _ _ Hsame).
    - eapply tc_l; [by apply (same_wiring_edge _ _ _ _ Hsame)|done]. }
  split_and!; [done|by apply Hmono..].
Qed.

Lemma length_pods_after_op_checked op pb :
  (length (pods pb) ≤ length (pods (run_op_checked op pb).2))%nat.
Proof.
  destruct (run_op_checked_wiring op pb) as [op' Hsame].
  rewrite <-(same_wiring_length _ _ Hsame). apply length_pods_after_op.
Qed.

(** X9: whatever script of [add_pod] and [add_edge] calls wires a table
    from the empty one, with the calls that raise (a taken name, a port
    or a counter outside its range) passed over, the result is well
    formed; with room for as many nested calls of [_topological_sort_pod]
    as it has pods, [is_acyclic] on it returns, leaves it as it was, and
    answers [False] exactly when some cycle passes through two different
    pods. *)
Theorem is_acyclic_after_build (script : list build_op) (depth : nat) :
  (length (pods (build_checked script RoutingTableProto_new)) ≤ depth)%nat →
  well_formed (build_checked script RoutingTableProto_new) ∧
  ∃ b, is_acyclic_at depth (build_checked script RoutingTableProto_new)
         = (Ok b, build_checked script RoutingTableProto_new) ∧
    (b = false ↔
     has_proper_cycle (build_checked script RoutingTableProto_new)).
Proof.
  intros Hdepth.
  pose proof (build_checked_well_formed script _ new_well_formed) as Hwf.
  split; [done|]. by apply is_acyclic_at_decides; [apply Hwf|].
Qed.

(** X15: a reported cycle stays reported.  If [is_acyclic] answers
    [False] on a well-formed table, it still answers [False] after any
    further [add_pod] or [add_edge] call, whether that call succeeds or
    raises (a taken name, a port or a counter outside its range), as
    long as there is room for as many nested calls of
    [_topological_sort_pod] as the table then has pods. *)
Theorem reported_cycle_persists (pb : RoutingTableProto) (op : build_op)
    (depth : nat) :
  well_formed pb →
  (length (pods (run_op_checked op pb).2) ≤ depth)%nat →
  (is_acyclic_at depth pb).1 = Ok false →
  (is_acyclic_at depth (run_op_checked op pb).2).1 = Ok false.
Proof.
  intros Hwf Hdepth Hfalse.
  pose proof (length_pods_after_op_checked op pb) as Hgrow.
  destruct (is_acyclic_at_decides pb depth (proj1 Hwf)) as (b & Hrun & Hb);
    [lia|].
  rewrite Hrun in Hfalse. injection Hfalse as ->.
  pose proof (run_op_checked_well_formed op pb Hwf) as Hwf'.
  destruct (is_acyclic_at_decides _ depth (proj1 Hwf') Hdepth)
    as (b' & Hrun' & Hb').
  rewrite Hrun'. simpl. f_equal. apply Hb', proper_cycle_after_op_checked.
  by apply Hb.
Qed.

End range_checked_wiring.

Lemma is_acyclic_after_build_witness :
  (length (pods (build_checked (H := uint32_ranges) diamond_script
                   RoutingTableProto_new)) ≤ 4)%nat ∧
  ∃ b, is_acyclic_at 4
         (build_checked (H := uint32_ranges) diamond_script
            RoutingTableProto_new)
       = (Ok b, build_checked (H := uint32_ranges) diamond_script
                  RoutingTableProto_new) ∧
    (b = false ↔
     has_proper_cycle
       (build_checked (H := uint32_ranges) diamond_script
          RoutingTableProto_new)).
Proof.
  assert (length (pods (build_checked (H := uint32_ranges) diamond_script
                          RoutingTableProto_new)) ≤ 4)%nat
    as Hdepth by (vm_compute; lia).
  split; [exact Hdepth|].
  exact (proj2 (is_acyclic_after_build (H := uint32_ranges) diamond_script 4
                  Hdepth)).
Defined.

Lemma reported_cycle_persists_witness :
  (length (pods (add_edge_checked (H := uint32_ranges) "B" "C" two_cycle).2)
     ≤ 3)%nat ∧
  (is_acyclic_at 3 two_cycle).1 = Ok false ∧
  (is_acyclic_at 3
     (add_edge_checked (H := uint32_ranges) "B" "C" two_cycle).2).1
    = Ok false.
Proof.
  assert (length (pods (add_edge_checked (H := uint32_ranges) "B" "C"
                          two_cycle).2) ≤ 3)%nat as Hdepth
    by (vm_compute; lia).
  split_and!; [exact Hdepth|reflexivity|].
  apply (reported_cycle_persists (H := uint32_ranges) two_cycle
           (AddEdge "B" "C") 3 two_cycle_well_formed Hdepth).
  reflexivity.
Defined.
